(** * Colour metric tensors (colour/tensor.py)

    A shallow embedding of the tensor builders of [colour/tensor.py]:
    [euclidean] and its seven named instances, the Riemannised CIEDE2000
    metric [dE_00] and the Poincare disk metric [poincare_disk].

    Numbers are the real numbers of the Standard Library: the builders are
    modelled in exact arithmetic.  Overflow and the non-finite values of
    binary floating point are outside the model; rounding is modelled for
    the one step whose range it changes, the sum that normalises the
    degree hue.
    numpy arrays are lists: a one-dimensional array is a [list R], an
    (N,3) array of coordinates a list of triples, an (N,3,3) array a list
    of lists of lists. *)

From Stdlib Require Import Reals Lra.
From stdpp Require Import base option list.

Open Scope R_scope.

(** Comparison of reals is decided by the Standard Library's [Rlt_dec];
    it is what a boolean mask such as [h_deg < 0] evaluates. *)
#[global] Instance Rlt_decision (x y : R) : Decision (x < y) := Rlt_dec x y.

(** ** The parts of numpy that tensor.py uses *)

Module np.

(** One-dimensional float array. *)
Abbreviation arr := (list R) (only parsing).
(** One matrix, as a list of rows. *)
Abbreviation mat := (list (list R)) (only parsing).
(** An (N,3,3) batch of matrices. *)
Abbreviation tensor := (list (list (list R))) (only parsing).
(** An (N,3) batch of coordinates. *)
Abbreviation coords := (list (R * R * R)) (only parsing).

(** Broadcasting arithmetic: each operator is overloaded on
    (scalar, array), (array, scalar) and (array, array). *)
Class Add (A B C : Type) := add : A → B → C.
Class Sub (A B C : Type) := sub : A → B → C.
Class Mul (A B C : Type) := mul : A → B → C.
Class Div (A B C : Type) := div : A → B → C.
Class Pow (A B C : Type) := pow : A → B → C.
#[global] Hint Mode Add ! ! - : typeclass_instances.
#[global] Hint Mode Sub ! ! - : typeclass_instances.
#[global] Hint Mode Mul ! ! - : typeclass_instances.
#[global] Hint Mode Div ! ! - : typeclass_instances.
#[global] Hint Mode Pow ! ! - : typeclass_instances.

#[global] Instance add_sa : Add R arr arr := λ k a, (λ x, k + x) <$> a.
#[global] Instance add_as : Add arr R arr := λ a k, (λ x, x + k) <$> a.
#[global] Instance add_aa : Add arr arr arr := zip_with Rplus.
#[global] Instance sub_sa : Sub R arr arr := λ k a, (λ x, k - x) <$> a.
#[global] Instance sub_as : Sub arr R arr := λ a k, (λ x, x - k) <$> a.
#[global] Instance sub_aa : Sub arr arr arr := zip_with Rminus.
#[global] Instance mul_sa : Mul R arr arr := λ k a, (λ x, k * x) <$> a.
#[global] Instance mul_as : Mul arr R arr := λ a k, (λ x, x * k) <$> a.
#[global] Instance mul_aa : Mul arr arr arr := zip_with Rmult.
#[global] Instance div_sa : Div R arr arr := λ k a, (λ x, k / x) <$> a.
#[global] Instance div_as : Div arr R arr := λ a k, (λ x, x / k) <$> a.
#[global] Instance div_aa : Div arr arr arr := zip_with Rdiv.
(** [a ** n] for a literal exponent: a natural number, or an integer
    when the exponent is negative. *)
#[global] Instance pow_nat : Pow arr nat arr := λ a n, (λ x, x ^ n) <$> a.
#[global] Instance pow_Z : Pow arr Z arr := λ a z, (λ x, powerRZ x z) <$> a.

(** Unary minus. *)
Definition neg (a : arr) : arr := Ropp <$> a.

(** Scalar angle conversions and their elementwise versions. *)
Definition rad2deg1 (x : R) : R := x * (180 / PI).
Definition deg2rad1 (x : R) : R := x * (PI / 180).
Definition rad2deg (a : arr) : arr := rad2deg1 <$> a.
Definition deg2rad (a : arr) : arr := deg2rad1 <$> a.

(** Elementwise functions. *)
Definition cos (a : arr) : arr := Rtrigo_def.cos <$> a.
Definition sin (a : arr) : arr := Rtrigo_def.sin <$> a.
Definition exp (a : arr) : arr := Rtrigo_def.exp <$> a.
Definition sqrt (a : arr) : arr := R_sqrt.sqrt <$> a.

(** [a < k]: the boolean mask of a comparison with a scalar. *)
Definition lt_s (a : arr) (k : R) : list bool :=
  (λ x, bool_decide (x < k)) <$> a.

(** [a[m]]: the entries of [a] selected by the mask, in order. *)
Fixpoint getmask (a : arr) (m : list bool) : arr :=
  match a, m with
  | x :: a', b :: m' =>
      if b then x :: getmask a' m' else getmask a' m'
  | _, _ => []
  end.

(** [a[m] = v]: the selected entries are overwritten, in order, by the
    entries of [v]. *)
Fixpoint setmask (a : arr) (m : list bool) (v : arr) : arr :=
  match a, m with
  | x :: a', true :: m' =>
      match v with
      | y :: v' => y :: setmask a' m' v'
      | [] => x :: setmask a' m' []
      end
  | x :: a', false :: m' => x :: setmask a' m' v
  | _, _ => a
  end.

(** [np.eye(n)]. *)
Definition eye (n : nat) : mat :=
  (λ i, (λ j, if decide (i = j) then 1 else 0) <$> seq 0 n) <$> seq 0 n.

(** [np.zeros((n, 3, 3))]. *)
Definition zeros33 (n : nat) : tensor :=
  replicate n (replicate 3 (replicate 3 0)).

(** Columns [a[:, 0]], [a[:, 1]], [a[:, 2]] of a coordinate batch. *)
Definition col0 (a : coords) : arr := (λ p, p.1.1) <$> a.
Definition col1 (a : coords) : arr := (λ p, p.1.2) <$> a.
Definition col2 (a : coords) : arr := (λ p, p.2) <$> a.

(** [g[i] = m]. *)
Definition set_mat (i : nat) (m : mat) (g : tensor) : tensor := <[i := m]> g.

(** [g[i, j, k] = v]. *)
Definition set_entry (i j k : nat) (v : R) (g : tensor) : tensor :=
  alter (alter (λ row, <[k := v]> row) j) i g.

(** [g[:, j, k] = vals], for [vals] of the length of [g], as every
    assignment of tensor.py is. *)
Definition set_column (j k : nat) (vals : arr) (g : tensor) : tensor :=
  zip_with (λ v m, alter (λ row, <[k := v]> row) j m) vals g.

(** [g[p, i, j]] as a read. *)
Definition entry (g : tensor) (p i j : nat) : option R :=
  m ← g !! p; row ← m !! i; row !! j.

(** [np.shape(g)[0]]. *)
Definition shape0 {A} (g : list A) : nat := length g.

(** The shape (n,3,3). *)
Definition has_shape (n : nat) (g : tensor) : Prop :=
  length g = n ∧ Forall (λ m, length m = 3%nat ∧ Forall (λ row, length row = 3%nat) m) g.

End np.

Declare Scope np_scope.
Delimit Scope np_scope with np.
Notation "x + y" := (np.add x y) : np_scope.
Notation "x - y" := (np.sub x y) : np_scope.
Notation "x * y" := (np.mul x y) : np_scope.
Notation "x / y" := (np.div x y) : np_scope.
Notation "x ** y" := (np.pow x y) (at level 30, right associativity) : np_scope.
Notation "- x" := (np.neg x) : np_scope.

(** ** Colour spaces (module space) *)

Module space.

(** Modelled from the spec: the colour-space descriptors of module [space],
    whose source is not at hand.  A colour space is an identifier; the
    named singletons are the ones tensor.py mentions, and a Poincare disk
    space is built over a base space and carries its radius of curvature. *)
Inductive Space : Type :=
| xyz | cielab | cieluv | lgj_e
| din99 | din99b | din99c | din99d
| ciede00lch
| TransformPoincareDisk (base : Space) (radius : R).

(** Modelled from the spec: the attribute [sp.R], the radius of curvature,
    present on Poincare disk spaces only; reading it on another space is a
    missing-attribute failure. *)
Definition R_ (sp : Space) : option R :=
  match sp with
  | TransformPoincareDisk _ radius => Some radius
  | _ => None
  end.

(** Modelled from the spec: [sp.empty_matrix(ndata)] allocates a
    zero-initialised batch of 3x3 matrices, one per row of [ndata]. *)
Definition empty_matrix {A} (sp : Space) (ndata : list A) : np.tensor :=
  np.zeros33 (np.shape0 ndata).

End space.

(** ** Sample batches and tensor results (module data) *)

Module data.

(** Modelled from the spec: the sample container of module [data], whose
    source is not at hand.  A batch exposes its XYZ coordinates as the
    attribute [linear_XYZ] and answers the request "coordinates of this
    batch in colour space sp"; nothing is assumed about the answers. *)
Record Data : Type := mkData {
  linear_XYZ : np.coords;
  get_linear : space.Space → np.coords
}.

(** Modelled from the spec: a tensor result, the triple of the native
    colour space, the originating batch and the batch of matrices. *)
Record TensorData : Type := mkTensorData {
  sp : space.Space;
  dat : Data;
  g : np.tensor
}.

End data.

(** ** tensor.py *)

(** [for i in range(n): body], for a loop body that may fail. *)
Fixpoint for_range {St : Type} (body : St → nat → option St)
    (range : list nat) (s : St) : option St :=
  match range with
  | [] => Some s
  | i :: range' => s' ← body s i; for_range body range' s'
  end.

Definition euclidean (sp : space.Space) (dat : data.Data) : data.TensorData :=
  let g := space.empty_matrix sp (data.linear_XYZ dat) in
  let g := foldl (λ g i, np.set_mat i (np.eye 3) g) g (seq 0 (np.shape0 g)) in
  data.mkTensorData sp dat g.

Definition dE_ab (dat : data.Data) : data.TensorData := euclidean space.cielab dat.
Definition dE_uv (dat : data.Data) : data.TensorData := euclidean space.cieluv dat.
Definition dE_E (dat : data.Data) : data.TensorData := euclidean space.lgj_e dat.
Definition dE_DIN99 (dat : data.Data) : data.TensorData := euclidean space.din99 dat.
Definition dE_DIN99b (dat : data.Data) : data.TensorData := euclidean space.din99b dat.
Definition dE_DIN99c (dat : data.Data) : data.TensorData := euclidean space.din99c dat.
Definition dE_DIN99d (dat : data.Data) : data.TensorData := euclidean space.din99d dat.

(** The local arrays of [dE_00], one definition per assignment. *)

(** [h_deg = np.rad2deg(h); h_deg[h_deg < 0] = h_deg[h_deg < 0] + 360] *)
Definition dE_00_h_deg (h : np.arr) : np.arr :=
  let h_deg := np.rad2deg h in
  let mask := np.lt_s h_deg 0 in
  np.setmask h_deg mask (np.getmask h_deg mask + 360)%np.

Definition dE_00_S_L (L : np.arr) : np.arr :=
  (1 + (0.015 * (L - 50) ** 2%nat) / np.sqrt (20 + (L - 50) ** 2%nat))%np.

Definition dE_00_S_C (C : np.arr) : np.arr :=
  (1 + 0.045 * C)%np.

Definition dE_00_T (h h_deg : np.arr) : np.arr :=
  (1 - 0.17 * np.cos (np.deg2rad (h_deg - 30)) +
   0.24 * np.cos (2 * h) +
   0.32 * np.cos (np.deg2rad (3 * h_deg + 6)) -
   0.2 * np.cos (np.deg2rad (4 * h_deg - 63)))%np.

Definition dE_00_S_h (C T : np.arr) : np.arr :=
  (1 + 0.015 * C * T)%np.

Definition dE_00_R_C (C : np.arr) : np.arr :=
  (2 * np.sqrt (C ** 7%nat / (C ** 7%nat + (25 ^ 7)%R)))%np.

Definition dE_00_d_theta (h_deg : np.arr) : np.arr :=
  (30 * np.exp (- ((h_deg - 275) / 25) ** 2%nat))%np.

Definition dE_00_R_T (R_C d_theta : np.arr) : np.arr :=
  ((- R_C) * np.sin (np.deg2rad (2 * d_theta)))%np.

Definition dE_00 (dat : data.Data) (k_L k_C k_h : R) : data.TensorData :=
  let lch := data.get_linear dat space.ciede00lch in
  let L := np.col0 lch in
  let C := np.col1 lch in
  let h := np.col2 lch in
  let h_deg := dE_00_h_deg h in
  let S_L := dE_00_S_L L in
  let S_C := dE_00_S_C C in
  let T := dE_00_T h h_deg in
  let S_h := dE_00_S_h C T in
  let R_C := dE_00_R_C C in
  let d_theta := dE_00_d_theta h_deg in
  let R_T := dE_00_R_T R_C d_theta in
  let g := space.empty_matrix space.ciede00lch lch in
  let g := np.set_column 0 0 ((k_L * S_L) ** (-2)%Z)%np g in
  let g := np.set_column 1 1 ((k_C * S_C) ** (-2)%Z)%np g in
  let g := np.set_column 2 2 (C ** 2%nat * (k_h * S_h) ** (-2)%Z)%np g in
  let g := np.set_column 1 2 (0.5 * C * R_T / (k_C * S_C * k_h * S_h))%np g in
  let g := np.set_column 2 1 (0.5 * C * R_T / (k_C * S_C * k_h * S_h))%np g in
  data.mkTensorData space.ciede00lch dat g.

(** The default weights [k_L=1, k_C=1, k_h=1]. *)
Definition dE_00_default (dat : data.Data) : data.TensorData := dE_00 dat 1 1 1.

(** One iteration of the loop of [poincare_disk]. *)
Definition poincare_disk_body (sp : space.Space) (d : np.coords)
  (g : np.tensor) (i : nat) : option np.tensor :=
  let g := np.set_entry i 0 0 1 g in
  R ← space.R_ sp; di ← d !! i;
  let g := np.set_entry i 1 1 (R ^ 2 * 4 / (1 - di.1.2 ^ 2 - di.2 ^ 2) ^ 2) g in
  R ← space.R_ sp; di ← d !! i;
  let g := np.set_entry i 2 2 (R ^ 2 * 4 / (1 - di.1.2 ^ 2 - di.2 ^ 2) ^ 2) g in
  Some g.

Definition poincare_disk (sp : space.Space) (dat : data.Data) : option data.TensorData :=
  let d := data.get_linear dat sp in
  let g := space.empty_matrix sp d in
  g ← for_range (poincare_disk_body sp d) (seq 0 (np.shape0 g)) g;
  Some (data.mkTensorData sp dat g).

(** ** The CIEDE2000 scalars as the specification words them

    One definition per line of step 2 and step 3 of the CIEDE2000
    algorithm, for a single point with lightness [L], chroma [C] and hue
    angle [h] in radians.  Degrees are converted back to radians before a
    trigonometric function is applied. *)

Module spec.

Definition h_deg (h : R) : R :=
  let d := np.rad2deg1 h in if decide (d < 0) then d + 360 else d.

Definition S_L (L : R) : R :=
  1 + 0.015 * (L - 50) ^ 2 / sqrt (20 + (L - 50) ^ 2).

Definition S_C (C : R) : R := 1 + 0.045 * C.

Definition T (h : R) : R :=
  1 - 0.17 * cos (np.deg2rad1 (h_deg h - 30))
    + 0.24 * cos (2 * h)
    + 0.32 * cos (np.deg2rad1 (3 * h_deg h + 6))
    - 0.20 * cos (np.deg2rad1 (4 * h_deg h - 63)).

Definition S_h (C h : R) : R := 1 + 0.015 * C * T h.

Definition R_C (C : R) : R := 2 * sqrt (C ^ 7 / (C ^ 7 + 25 ^ 7)).

Definition d_theta (h : R) : R := 30 * exp (- ((h_deg h - 275) / 25) ^ 2).

Definition R_T (C h : R) : R := - R_C C * sin (np.deg2rad1 (2 * d_theta h)).

End spec.


(** ** The locals of dE_00 as functions of the batch *)

Definition dE_00_lch (dat : data.Data) : list (R * R * R) :=
  data.get_linear dat space.ciede00lch.

Definition dE_00_local_h_deg (dat : data.Data) : list R :=
  dE_00_h_deg (np.col2 (dE_00_lch dat)).

Definition dE_00_local_T (dat : data.Data) : list R :=
  dE_00_T (np.col2 (dE_00_lch dat)) (dE_00_local_h_deg dat).

Definition dE_00_local_S_h (dat : data.Data) : list R :=
  dE_00_S_h (np.col1 (dE_00_lch dat)) (dE_00_local_T dat).

Definition dE_00_local_R_T (dat : data.Data) : list R :=
  dE_00_R_T (dE_00_R_C (np.col1 (dE_00_lch dat)))
            (dE_00_d_theta (dE_00_local_h_deg dat)).

(** The matrix [poincare_disk] leaves at a point with coordinates [p] when
    the radius of curvature is [Rc]. *)
Definition poincare_disk_point (Rc : R) (p : R * R * R) : np.mat :=
  [[1; 0; 0];
   [0; Rc ^ 2 * 4 / (1 - p.1.2 ^ 2 - p.2 ^ 2) ^ 2; 0];
   [0; 0; Rc ^ 2 * 4 / (1 - p.1.2 ^ 2 - p.2 ^ 2) ^ 2]].


(** The matrix [dE_00] leaves at a point with coordinates [p] = (L, C, h),
    written with the scalars of the specification. *)
Definition dE_00_point (k_L k_C k_h : R) (p : R * R * R) : list (list R) :=
  let L := p.1.1 in
  let C := p.1.2 in
  let h := p.2 in
  [[powerRZ (k_L * spec.S_L L) (-2); 0; 0];
   [0; powerRZ (k_C * spec.S_C C) (-2);
       0.5 * C * spec.R_T C h / (k_C * spec.S_C C * k_h * spec.S_h C h)];
   [0; 0.5 * C * spec.R_T C h / (k_C * spec.S_C C * k_h * spec.S_h C h);
       C ^ 2 * powerRZ (k_h * spec.S_h C h) (-2)]].



(** ** Symmetry of a batch of matrices *)

(** [m[i,j]] and [m[j,i]] exist and agree, for all indices in {0,1,2}. *)
Definition symmetric33 (m : list (list R)) : Prop :=
  ∀ i j : nat, (i < 3)%nat → (j < 3)%nat →
    ∃ x : R, (row ← m !! i; row !! j) = Some x ∧ (row ← m !! j; row !! i) = Some x.

Definition symmetric_batch (g : list (list (list R))) : Prop :=
  Forall symmetric33 g.

(** ** Sample batches *)

(** Three points: a grey (zero chroma), a colour with positive hue angle
    and one with hue angle -90 degrees. *)
Definition sample_lch : list (R * R * R) :=
  [(50, 0, 0); (60, 30, 1); (40, 20, - (PI / 2))].

Definition sample_disk : list (R * R * R) :=
  [(50, 0, 0); (60, 1 / 2, 1 / 4); (40, 0, 1 / 3)].

(** A batch whose disk coordinates are the same whatever the radius. *)
Definition sample_dat : data.Data :=
  data.mkData
    [(0.2, 0.2, 0.2); (0.3, 0.4, 0.1); (0.1, 0.1, 0.3)]
    (λ sp, match sp with
           | space.ciede00lch => sample_lch
           | space.TransformPoincareDisk _ _ => sample_disk
           | _ => [(50, 0, 0); (60, 10, 20); (40, -5, 15)]
           end).

(** A one-point batch whose hue angle is -3 pi, below one full turn. *)
Definition wound_dat : data.Data :=
  data.mkData [(0.2, 0.2, 0.2)] (λ _, [(50, 10, - (3 * PI))]).

(** A one-point batch whose disk coordinates shrink as the radius of the
    disk space grows, as the coordinates of a fixed colour do. *)
Definition shrinking_dat : data.Data :=
  data.mkData
    [(0.2, 0.2, 0.2)]
    (λ sp, match space.R_ sp with
           | Some Rc => [(50, / (2 * Rc), 0)]
           | None => [(50, 1, 0)]
           end).

(** ** Quadratic forms

    A metric tensor measures a displacement [v] by the quadratic form
    v^T g v. *)

Definition dot (u v : list R) : R := foldr Rplus 0 (zip_with Rmult u v).

Definition mat_vec (m : list (list R)) (v : list R) : list R :=
  (λ row, dot row v) <$> m.

Definition quad_form (m : list (list R)) (v : list R) : R := dot v (mat_vec m v).

(** The hue term of [dE_00] with every angle in radians. *)
Definition T_radians (h : R) : R :=
  1 - 0.17 * cos (h - np.deg2rad1 30)
    + 0.24 * cos (2 * h)
    + 0.32 * cos (3 * h + np.deg2rad1 6)
    - 0.20 * cos (4 * h - np.deg2rad1 63).

(** Two points of the same colour, the hue angle given as 275 degrees and
    as 275 degrees plus one full turn. *)
Definition turn_dat : data.Data :=
  data.mkData
    [(0.2, 0.2, 0.2); (0.2, 0.2, 0.2)]
    (λ _, [(50, 10, np.deg2rad1 275); (50, 10, np.deg2rad1 275 + 2 * PI)]).

(** The first point of [sample_dat] and its other two points, as batches
    of their own. *)
Definition sample_dat_head : data.Data :=
  data.mkData
    [(0.2, 0.2, 0.2)]
    (λ sp, take 1 (data.get_linear sample_dat sp)).

Definition sample_dat_tail : data.Data :=
  data.mkData
    [(0.3, 0.4, 0.1); (0.1, 0.1, 0.3)]
    (λ sp, drop 1 (data.get_linear sample_dat sp)).

(** ** The hue term as a function of its two arguments *)



(** ** The normalising sum under rounding *)

(** A rounding of the reals to representable numbers among which are 0 and
    360: it is monotone and leaves 0 and 360 as they are.  Rounding to the
    nearest binary floating-point number is one; the identity is exact
    arithmetic. *)
Definition rounding (rnd : R → R) : Prop :=
  (∀ x y : R, x <= y → rnd x <= rnd y) ∧ rnd 0 = 0 ∧ rnd 360 = 360.

(** [h_deg[h_deg < 0] = h_deg[h_deg < 0] + 360] on the array [h_deg] that
    [np.rad2deg] returned, with the sum rounded by [rnd]. *)
Definition dE_00_h_deg_rounded (rnd : R → R) (h_deg : list R) : list R :=
  let mask := np.lt_s h_deg 0 in
  np.setmask h_deg mask (rnd <$> (np.getmask h_deg mask + 360)%np).

(** A coarse rounding: everything above 359 goes to 360. *)
Definition coarse_rounding (x : R) : R :=
  if decide (359 < x) then 360 else x.

(** ** Tactics *)

(** Unfolds the overloaded array operators to maps and zips. *)
Ltac np_unfold :=
  unfold np.add, np.sub, np.mul, np.div, np.pow, np.neg,
    np.add_sa, np.add_as, np.add_aa, np.sub_sa, np.sub_as, np.sub_aa,
    np.mul_sa, np.mul_as, np.mul_aa, np.div_sa, np.div_as, np.div_aa,
    np.pow_nat, np.pow_Z, np.cos, np.sin, np.exp, np.sqrt,
    np.rad2deg, np.deg2rad, np.col0, np.col1, np.col2 in *.

(** One step of an elementwise computation on a non-empty batch. *)
Ltac np_step := cbn [fmap list_fmap zip_with length replicate fst snd] in *.

(** ** Loops over a whole batch *)

Section loops.
Context {A : Type}.

Lemma foldl_insert_shift (f : nat → A) (x : A) (l : list A) (range : list nat) :
  foldl (λ g i, <[i := f i]> g) (x :: l) (S <$> range)
  = x :: foldl (λ g i, <[i := f (S i)]> g) l range.
Proof.
  revert l. induction range as [|i range IH]; intros l; [done|].
  csimpl. apply IH.
Qed.

Lemma foldl_insert_all (f : nat → A) (l : list A) :
  foldl (λ g i, <[i := f i]> g) l (seq 0 (length l)) = f <$> seq 0 (length l).
Proof.
  revert f. induction l as [|x l IH]; intros f; [done|].
  cbn [length seq]. rewrite <- fmap_S_seq. cbn [foldl].
  change (<[0%nat := f 0%nat]> (x :: l)) with (f 0%nat :: l).
  rewrite foldl_insert_shift, (IH (λ i, f (S i))). csimpl.
  by rewrite <- list_fmap_compose.
Qed.

Lemma fmap_const_seq (x : A) (a n : nat) : (λ _, x) <$> seq a n = replicate n x.
Proof. revert a. induction n as [|n IH]; intros a; [done|]. csimpl. by rewrite IH. Qed.

End loops.

Lemma eye3 : np.eye 3 = [[1; 0; 0]; [0; 1; 0]; [0; 0; 1]].
Proof. reflexivity. Qed.

Lemma length_zeros33 n : length (np.zeros33 n) = n.
Proof. apply length_replicate. Qed.

Lemma euclidean_g sp dat :
  data.g (euclidean sp dat) = replicate (length (data.linear_XYZ dat)) (np.eye 3).
Proof.
  unfold euclidean, space.empty_matrix, np.shape0, np.set_mat. cbn [data.g].
  rewrite (foldl_insert_all (λ _, np.eye 3)), length_zeros33.
  apply fmap_const_seq.
Qed.

(** ** The Poincare disk loop *)

Lemma poincare_disk_body_shift sp x d m g i :
  poincare_disk_body sp (x :: d) (m :: g) (S i)
  = (λ g', m :: g') <$> poincare_disk_body sp d g i.
Proof.
  unfold poincare_disk_body. destruct (space.R_ sp) as [Rc|]; [|done].
  cbn [mbind option_bind].
  change ((x :: d) !! S i) with (d !! i).
  by destruct (d !! i) as [di|].
Qed.

Lemma poincare_disk_loop_shift sp x d m range g :
  for_range (poincare_disk_body sp (x :: d)) (S <$> range) (m :: g)
  = (λ g', m :: g') <$> for_range (poincare_disk_body sp d) range g.
Proof.
  revert g. induction range as [|i range IH]; intros g; [done|].
  cbn [fmap list_fmap for_range]. rewrite poincare_disk_body_shift.
  destruct (poincare_disk_body sp d g i) as [g'|]; [|done].
  apply IH.
Qed.

Lemma poincare_disk_body_head sp Rc x d g :
  space.R_ sp = Some Rc →
  poincare_disk_body sp (x :: d) (replicate 3 (replicate 3 0) :: g) 0
  = Some (poincare_disk_point Rc x :: g).
Proof. intros HR. unfold poincare_disk_body. by rewrite HR. Qed.

Lemma poincare_disk_loop sp Rc d :
  space.R_ sp = Some Rc →
  for_range (poincare_disk_body sp d) (seq 0 (length d)) (np.zeros33 (length d))
  = Some (poincare_disk_point Rc <$> d).
Proof.
  intros HR. induction d as [|x d IH]; [done|].
  cbn [length seq]. rewrite <- fmap_S_seq.
  change (np.zeros33 (S (length d)))
    with (replicate 3 (replicate 3 0) :: np.zeros33 (length d)).
  cbn [for_range].
  rewrite (poincare_disk_body_head sp Rc) by done.
  cbn [mbind option_bind]. rewrite poincare_disk_loop_shift.
  by rewrite IH.
Qed.

(** ** The local arrays of dE_00, point by point *)

Lemma setmask_getmask (f : R → bool) (k : R → R) (a : list R) :
  np.setmask a (f <$> a) (k <$> np.getmask a (f <$> a))
  = (λ x, if f x then k x else x) <$> a.
Proof.
  induction a as [|x a IH]; [done|].
  csimpl. destruct (f x); csimpl; by rewrite IH.
Qed.

Lemma dE_00_h_deg_pointwise (h : list R) :
  dE_00_h_deg h = spec.h_deg <$> h.
Proof.
  unfold dE_00_h_deg, np.lt_s, np.add, np.add_as, np.rad2deg.
  rewrite setmask_getmask, <- list_fmap_compose.
  apply list_fmap_ext. intros _ x _. unfold spec.h_deg. cbn.
  destruct (decide (np.rad2deg1 x < 0)) as [Hneg|Hpos].
  - by rewrite bool_decide_eq_true_2.
  - by rewrite bool_decide_eq_false_2.
Qed.

Lemma dE_00_S_L_pointwise (L : list R) :
  dE_00_S_L L = spec.S_L <$> L.
Proof.
  unfold dE_00_S_L. np_unfold.
  induction L as [|x L IH]; [done|]. np_step. by rewrite IH.
Qed.

Lemma dE_00_S_C_pointwise (C : list R) :
  dE_00_S_C C = spec.S_C <$> C.
Proof.
  unfold dE_00_S_C. np_unfold.
  induction C as [|x C IH]; [done|]. np_step. by rewrite IH.
Qed.

Lemma dE_00_T_pointwise (h : list R) :
  dE_00_T h (dE_00_h_deg h) = spec.T <$> h.
Proof.
  rewrite dE_00_h_deg_pointwise. unfold dE_00_T. np_unfold.
  induction h as [|x h IH]; [done|]. np_step. rewrite IH.
  f_equal. unfold spec.T. lra.
Qed.

Lemma dE_00_S_h_pointwise (lch : list (R * R * R)) :
  dE_00_S_h (np.col1 lch) (spec.T <$> np.col2 lch)
  = (λ p, spec.S_h p.1.2 p.2) <$> lch.
Proof.
  unfold dE_00_S_h. np_unfold.
  induction lch as [|x lch IH]; [done|]. np_step. by rewrite IH.
Qed.

Lemma dE_00_R_C_pointwise (C : list R) :
  dE_00_R_C C = spec.R_C <$> C.
Proof.
  unfold dE_00_R_C. np_unfold.
  induction C as [|x C IH]; [done|]. np_step. by rewrite IH.
Qed.

Lemma dE_00_d_theta_pointwise (h : list R) :
  dE_00_d_theta (dE_00_h_deg h) = spec.d_theta <$> h.
Proof.
  rewrite dE_00_h_deg_pointwise. unfold dE_00_d_theta. np_unfold.
  induction h as [|x h IH]; [done|]. np_step. by rewrite IH.
Qed.

Lemma dE_00_R_T_pointwise (lch : list (R * R * R)) :
  dE_00_R_T (spec.R_C <$> np.col1 lch) (spec.d_theta <$> np.col2 lch)
  = (λ p, spec.R_T p.1.2 p.2) <$> lch.
Proof.
  unfold dE_00_R_T. np_unfold.
  induction lch as [|x lch IH]; [done|]. np_step. by rewrite IH.
Qed.

Lemma dE_00_g (dat : data.Data) (k_L k_C k_h : R) :
  data.g (dE_00 dat k_L k_C k_h)
  = dE_00_point k_L k_C k_h <$> data.get_linear dat space.ciede00lch.
Proof.
  unfold dE_00. cbv zeta. cbn [data.g].
  generalize (data.get_linear dat space.ciede00lch) as lch. intros lch.
  rewrite dE_00_T_pointwise, dE_00_d_theta_pointwise.
  rewrite dE_00_S_L_pointwise, dE_00_S_C_pointwise, dE_00_R_C_pointwise.
  rewrite dE_00_S_h_pointwise, dE_00_R_T_pointwise.
  unfold space.empty_matrix, np.zeros33, np.shape0, np.set_column. np_unfold.
  induction lch as [|p lch IH]; [done|].
  np_step. cbn [alter list_alter insert list_insert]. by rewrite IH.
Qed.

(** ** Reading entries and shapes of a pointwise batch *)

Lemma entry_fmap {A : Type} (f : A → list (list R)) (l : list A)
    (p : nat) (x : A) (i j : nat) :
  l !! p = Some x →
  np.entry (f <$> l) p i j = (row ← f x !! i; row !! j).
Proof. intros Hp. unfold np.entry. by rewrite list_lookup_fmap, Hp. Qed.

Lemma has_shape_fmap {A : Type} (f : A → list (list R)) (l : list A) :
  (∀ x, length (f x) = 3%nat ∧ Forall (λ row, length row = 3%nat) (f x)) →
  np.has_shape (length l) (f <$> l).
Proof.
  intros Hf. split; [apply length_fmap|].
  apply Forall_fmap, Forall_true. intros x. apply Hf.
Qed.

Lemma has_shape_replicate (n : nat) (m : list (list R)) :
  length m = 3%nat → Forall (λ row, length row = 3%nat) m →
  np.has_shape n (replicate n m).
Proof.
  intros Hm Hrows. split; [apply length_replicate|].
  apply Forall_replicate. by split.
Qed.

Lemma symmetric33_eye : symmetric33 (np.eye 3).
Proof.
  intros i j Hi Hj.
  destruct i as [|[|[|i]]]; [| | |lia];
    (destruct j as [|[|[|j]]]; [| | |lia]); eexists; split; reflexivity.
Qed.

Lemma symmetric33_dE_00_point k_L k_C k_h p :
  symmetric33 (dE_00_point k_L k_C k_h p).
Proof.
  intros i j Hi Hj.
  destruct i as [|[|[|i]]]; [| | |lia];
    (destruct j as [|[|[|j]]]; [| | |lia]); eexists; split; reflexivity.
Qed.

Lemma symmetric33_poincare_disk_point Rc p :
  symmetric33 (poincare_disk_point Rc p).
Proof.
  intros i j Hi Hj.
  destruct i as [|[|[|i]]]; [| | |lia];
    (destruct j as [|[|[|j]]]; [| | |lia]); eexists; split; reflexivity.
Qed.

Lemma poincare_disk_g sp Rc dat :
  space.R_ sp = Some Rc →
  poincare_disk sp dat
  = Some (data.mkTensorData sp dat (poincare_disk_point Rc <$> data.get_linear dat sp)).
Proof.
  intros HR. unfold poincare_disk, space.empty_matrix, np.shape0.
  rewrite length_zeros33, (poincare_disk_loop sp Rc) by done. done.
Qed.

Lemma poincare_disk_body_no_radius sp d g i :
  space.R_ sp = None → poincare_disk_body sp d g i = None.
Proof. intros HR. unfold poincare_disk_body. by rewrite HR. Qed.

(** A failed [poincare_disk] is a failed read of the radius on a non-empty
    batch. *)
Lemma poincare_disk_no_radius sp dat :
  space.R_ sp = None →
  poincare_disk sp dat
  = match data.get_linear dat sp with
    | [] => Some (data.mkTensorData sp dat [])
    | _ :: _ => None
    end.
Proof.
  intros HR. unfold poincare_disk, space.empty_matrix, np.shape0.
  rewrite length_zeros33.
  destruct (data.get_linear dat sp) as [|x d]; [done|].
  cbn [length seq for_range]. by rewrite poincare_disk_body_no_radius.
Qed.

(** ** The Euclidean family *)

(** C6: for every colour space and every batch of N points, [euclidean]
    returns a result tagged with that space and that batch whose matrix
    batch has shape (N,3,3) and consists of N copies of the 3x3 identity;
    each of the seven named builders is [euclidean] at its own space and so
    returns the same matrix batch. *)
Theorem euclidean_identity_batch (sp : space.Space) (dat : data.Data) :
  let N := length (data.linear_XYZ dat) in
  let identity := [[1; 0; 0]; [0; 1; 0]; [0; 0; 1]] in
  data.sp (euclidean sp dat) = sp ∧
  data.dat (euclidean sp dat) = dat ∧
  np.has_shape N (data.g (euclidean sp dat)) ∧
  data.g (euclidean sp dat) = replicate N identity ∧
  Forall (λ m, m = identity) (data.g (euclidean sp dat)) ∧
  Forall (λ td, data.g td = replicate N identity ∧ data.dat td = dat)
    [dE_ab dat; dE_uv dat; dE_E dat; dE_DIN99 dat;
     dE_DIN99b dat; dE_DIN99c dat; dE_DIN99d dat] ∧
  data.sp <$> [dE_ab dat; dE_uv dat; dE_E dat; dE_DIN99 dat;
               dE_DIN99b dat; dE_DIN99c dat; dE_DIN99d dat]
  = [space.cielab; space.cieluv; space.lgj_e; space.din99;
     space.din99b; space.din99c; space.din99d].
Proof.
  intros N identity.
  assert (Hg : ∀ sp', data.g (euclidean sp' dat) = replicate N identity).
  { intros sp'. by rewrite euclidean_g, eye3. }
  split_and!; [done|done| | | | |done].
  - rewrite Hg. apply has_shape_replicate; [done|]. by repeat constructor.
  - apply Hg.
  - rewrite Hg. by apply Forall_replicate.
  - unfold dE_ab, dE_uv, dE_E, dE_DIN99, dE_DIN99b, dE_DIN99c, dE_DIN99d.
    repeat constructor; apply Hg.
Qed.

(** C10: the matrix batch of [euclidean] depends on the number of points
    only.  Two batches with the same number of points, whatever their
    coordinates and whatever they answer when asked for coordinates in a
    colour space, get the same matrices, also under two different target
    spaces; in particular replacing the answers of [get_linear] by any
    others leaves the matrices unchanged.  The same holds for the seven
    named builders. *)
Theorem euclidean_depends_on_size_only
    (sp1 sp2 : space.Space) (dat1 dat2 : data.Data) :
  length (data.linear_XYZ dat1) = length (data.linear_XYZ dat2) →
  data.g (euclidean sp1 dat1) = data.g (euclidean sp2 dat2) ∧
  (∀ answers : space.Space → list (R * R * R),
     data.g (euclidean sp1 (data.mkData (data.linear_XYZ dat1) answers))
     = data.g (euclidean sp1 dat1)) ∧
  data.g <$> [dE_ab dat1; dE_uv dat1; dE_E dat1; dE_DIN99 dat1;
              dE_DIN99b dat1; dE_DIN99c dat1; dE_DIN99d dat1]
  = data.g <$> [dE_ab dat2; dE_uv dat2; dE_E dat2; dE_DIN99 dat2;
                dE_DIN99b dat2; dE_DIN99c dat2; dE_DIN99d dat2].
Proof.
  intros HN. split; [|split].
  - by rewrite !euclidean_g, HN.
  - intros answers. by rewrite !euclidean_g.
  - unfold dE_ab, dE_uv, dE_E, dE_DIN99, dE_DIN99b, dE_DIN99c, dE_DIN99d.
    cbn [fmap list_fmap]. by rewrite !euclidean_g, HN.
Qed.

Lemma euclidean_depends_on_size_only_witness :
  data.g (euclidean space.cielab sample_dat)
  = data.g (euclidean space.cieluv
              (data.mkData [(1, 2, 3); (4, 5, 6); (7, 8, 9)] (λ _, []))).
Proof.
  apply (euclidean_depends_on_size_only space.cielab space.cieluv sample_dat
           (data.mkData [(1, 2, 3); (4, 5, 6); (7, 8, 9)] (λ _, []))).
  reflexivity.
Defined.

(** ** The CIEDE2000 builder *)

(** The matrix batch of [dE_00] is assembled from the local arrays. *)
Lemma dE_00_uses_locals (dat : data.Data) (k_L k_C k_h : R) :
  data.g (dE_00 dat k_L k_C k_h)
  = let lch := dE_00_lch dat in
    let C := np.col1 lch in
    let S_L := dE_00_S_L (np.col0 lch) in
    let S_C := dE_00_S_C C in
    let S_h := dE_00_local_S_h dat in
    let R_T := dE_00_local_R_T dat in
    np.set_column 2 1 (0.5 * C * R_T / (k_C * S_C * k_h * S_h))%np
      (np.set_column 1 2 (0.5 * C * R_T / (k_C * S_C * k_h * S_h))%np
         (np.set_column 2 2 (C ** 2%nat * (k_h * S_h) ** (-2)%Z)%np
            (np.set_column 1 1 ((k_C * S_C) ** (-2)%Z)%np
               (np.set_column 0 0 ((k_L * S_L) ** (-2)%Z)%np
                  (space.empty_matrix space.ciede00lch lch))))).
Proof. reflexivity. Qed.

Lemma dE_00_default_weights (dat : data.Data) :
  dE_00_default dat = dE_00 dat 1 1 1.
Proof. reflexivity. Qed.

Lemma powerRZ_minus_2 (x : R) : powerRZ x (-2) = / (x * x).
Proof.
  change (powerRZ x (-2)) with (/ (x ^ 2)). f_equal. ring.
Qed.

Lemma has_shape_dE_00 (dat : data.Data) (k_L k_C k_h : R) :
  np.has_shape (length (dE_00_lch dat)) (data.g (dE_00 dat k_L k_C k_h)).
Proof.
  rewrite dE_00_g. apply has_shape_fmap.
  intros x. split; [done|]. by repeat constructor.
Qed.

(** C1: the default weights are 1, and for every batch and all weights
    [dE_00] returns a result tagged
    with the CIEDE2000 cylindrical space and the batch itself, of shape
    (N,3,3), whose matrix at a point with coordinates (L, C, h) has
    g[0,0] = (k_L S_L)^-2, g[1,1] = (k_C S_C)^-2, g[2,2] = C^2 (k_h S_h)^-2,
    g[1,2] = g[2,1] = 0.5 C R_T / (k_C S_C k_h S_h) and zero elsewhere,
    with S_L, S_C, S_h and R_T the scalars of the specification at that
    point. *)
Theorem dE_00_tensor_entries (dat : data.Data) (k_L k_C k_h : R)
    (p : nat) (L C h : R) :
  data.get_linear dat space.ciede00lch !! p = Some (L, C, h) →
  let td := dE_00 dat k_L k_C k_h in
  let g := data.g td in
  let S_L := spec.S_L L in
  let S_C := spec.S_C C in
  let S_h := spec.S_h C h in
  let R_T := spec.R_T C h in
  dE_00_default dat = dE_00 dat 1 1 1 ∧
  data.sp td = space.ciede00lch ∧
  data.dat td = dat ∧
  np.has_shape (length (data.get_linear dat space.ciede00lch)) g ∧
  np.entry g p 0 0 = Some (powerRZ (k_L * S_L) (-2)) ∧
  np.entry g p 1 1 = Some (powerRZ (k_C * S_C) (-2)) ∧
  np.entry g p 2 2 = Some (C ^ 2 * powerRZ (k_h * S_h) (-2)) ∧
  np.entry g p 1 2 = Some (0.5 * C * R_T / (k_C * S_C * k_h * S_h)) ∧
  np.entry g p 2 1 = Some (0.5 * C * R_T / (k_C * S_C * k_h * S_h)) ∧
  np.entry g p 0 1 = Some 0 ∧ np.entry g p 0 2 = Some 0 ∧
  np.entry g p 1 0 = Some 0 ∧ np.entry g p 2 0 = Some 0.
Proof.
  intros Hp td g S_L S_C S_h R_T. subst td g.
  split_and!; try done; [apply has_shape_dE_00|..];
    rewrite dE_00_g, (entry_fmap _ _ p (L, C, h)) by done; reflexivity.
Qed.

Lemma dE_00_tensor_entries_witness :
  np.entry (data.g (dE_00 sample_dat 1 1 1)) 1 1 2
  = Some (0.5 * 30 * spec.R_T 30 1 / (1 * spec.S_C 30 * 1 * spec.S_h 30 1)).
Proof.
  apply (dE_00_tensor_entries sample_dat 1 1 1 1 60 30 1). reflexivity.
Defined.






(** In exact arithmetic the cosine of twice the hue angle in radians is
    also the cosine of twice the normalised degree value converted back to
    radians: the two differ by two full turns at most. *)
Lemma cos_twice_hue_in_degrees (h : R) :
  cos (np.deg2rad1 (2 * spec.h_deg h)) = cos (2 * h).
Proof.
  unfold spec.h_deg. cbv zeta.
  destruct (decide (np.rad2deg1 h < 0)) as [Hneg|Hpos].
  - replace (np.deg2rad1 (2 * (np.rad2deg1 h + 360)))
      with (2 * h + 2 * INR 2 * PI).
    + apply cos_period.
    + unfold np.deg2rad1, np.rad2deg1. simpl INR. field. apply PI_neq0.
  - f_equal. unfold np.deg2rad1, np.rad2deg1. field. apply PI_neq0.
Qed.


(** *** Normalisation of the hue angle in degrees *)

Lemma rad2deg1_of_pi_multiple (k : R) : np.rad2deg1 (k * PI) = k * 180.
Proof. unfold np.rad2deg1. field. apply PI_neq0. Qed.

Lemma dE_00_local_h_deg_lookup (dat : data.Data) (p : nat) (L C h : R) :
  data.get_linear dat space.ciede00lch !! p = Some (L, C, h) →
  dE_00_local_h_deg dat !! p = Some (spec.h_deg h).
Proof.
  intros Hp. unfold dE_00_local_h_deg, dE_00_lch, np.col2.
  by rewrite dE_00_h_deg_pointwise, <- list_fmap_compose, list_lookup_fmap, Hp.
Qed.

(** C3, as stated, fails: a hue angle of -3 pi radians is -540 degrees,
    which the single addition of 360 takes to -180, outside [0, 360). *)
Lemma h_deg_below_one_turn_not_normalised :
  ¬ (∀ (dat : data.Data) (p : nat) (L C h : R),
       data.get_linear dat space.ciede00lch !! p = Some (L, C, h) →
       np.rad2deg1 h < 0 →
       ∃ h_deg : R,
         dE_00_local_h_deg dat !! p = Some h_deg ∧ 0 <= h_deg < 360).
Proof.
  intros Hall.
  assert (Hdeg : np.rad2deg1 (- (3 * PI)) = -540).
  { replace (- (3 * PI)) with (-3 * PI) by ring.
    rewrite rad2deg1_of_pi_multiple. lra. }
  destruct (Hall wound_dat 0%nat 50 10 (- (3 * PI)) eq_refl) as (h_deg & Hh & Hrange).
  { rewrite Hdeg. lra. }
  rewrite (dE_00_local_h_deg_lookup wound_dat 0 50 10 (- (3 * PI)) eq_refl) in Hh.
  injection Hh as <-. unfold spec.h_deg in Hrange. cbv zeta in Hrange.
  rewrite Hdeg in Hrange. destruct (decide (-540 < 0)); lra.
Qed.

Lemma dE_00_h_deg_rounded_pointwise (rnd : R → R) (h_deg : list R) :
  dE_00_h_deg_rounded rnd h_deg
  = (λ d, if decide (d < 0) then rnd (d + 360) else d) <$> h_deg.
Proof.
  unfold dE_00_h_deg_rounded, np.lt_s, np.add, np.add_as. cbv zeta.
  rewrite <- list_fmap_compose.
  rewrite (setmask_getmask (λ x, bool_decide (x < 0)) (rnd ∘ (λ x, x + 360))).
  apply list_fmap_ext. intros _ d _. cbn.
  destruct (decide (d < 0)) as [Hneg|Hpos].
  - by rewrite bool_decide_eq_true_2.
  - by rewrite bool_decide_eq_false_2.
Qed.

(** The exact step is the rounded step with the identity as rounding. *)
Lemma dE_00_h_deg_exact (h : list R) :
  dE_00_h_deg h = dE_00_h_deg_rounded id (np.rad2deg h).
Proof. unfold dE_00_h_deg, dE_00_h_deg_rounded. by rewrite list_fmap_id. Qed.

Lemma rounding_id : rounding id.
Proof. by split_and!. Qed.

Lemma rounding_coarse : rounding coarse_rounding.
Proof.
  unfold rounding, coarse_rounding. split_and!.
  - intros x y Hxy. destruct (decide (359 < x)), (decide (359 < y)); lra.
  - destruct (decide (359 < 0)); lra.
  - destruct (decide (359 < 360)); lra.
Qed.

Lemma dE_00_h_deg_rounded_lookup (rnd : R → R) (h_deg : list R) (q : nat) (d : R) :
  rounding rnd → h_deg !! q = Some d →
  ∃ r : R,
    dE_00_h_deg_rounded rnd h_deg !! q = Some r ∧
    (0 <= d → r = d) ∧
    (d < 0 → r = rnd (d + 360)) ∧
    (-360 <= d <= 360 → 0 <= r <= 360).
Proof.
  intros (Hmono & H0 & H360) Hq.
  rewrite dE_00_h_deg_rounded_pointwise, list_lookup_fmap, Hq. eexists.
  split; [reflexivity|]. cbv beta.
  destruct (decide (d < 0)) as [Hneg|Hpos]; split_and!; try (intros; lra).
  intros [Hlo Hhi].
  pose proof (Hmono 0 (d + 360) ltac:(lra)) as Ha.
  pose proof (Hmono (d + 360) 360 ltac:(lra)) as Hb. lra.
Qed.

(** With a rounded sum the value 360 itself is reached: the interval of
    the normalised values is closed at 360. *)
Lemma rounded_sum_reaches_360 :
  rounding coarse_rounding ∧
  dE_00_h_deg_rounded coarse_rounding [- (1 / 2)] = [360].
Proof.
  split; [apply rounding_coarse|].
  rewrite dE_00_h_deg_rounded_pointwise. cbn [fmap list_fmap].
  destruct (decide (- (1 / 2) < 0)); [|lra].
  unfold coarse_rounding. destruct (decide (359 < - (1 / 2) + 360)); [done|lra].
Qed.

(** C3, amended: at every point whose hue in degrees is negative and not
    below -360, the degree hue after the normalisation step is the hue in
    degrees plus 360 and lies in the closed interval [0, 360].  The same
    holds of the step applied to any array of degree values with the sum
    rounded by any rounding: the result for an entry d in [-360, 0) is the
    rounded d + 360 and lies in [0, 360].  The step of [dE_00] is the one
    with the identity as rounding. *)
Theorem dE_00_h_deg_normalised (dat : data.Data) (p : nat) (L C h : R) :
  data.get_linear dat space.ciede00lch !! p = Some (L, C, h) →
  -360 <= np.rad2deg1 h < 0 →
  (∃ h_deg : R,
     dE_00_local_h_deg dat !! p = Some h_deg ∧
     h_deg = np.rad2deg1 h + 360 ∧
     0 <= h_deg <= 360) ∧
  (∀ (rnd : R → R) (degs : list R) (q : nat) (d : R),
     rounding rnd → degs !! q = Some d → -360 <= d < 0 →
     ∃ r : R,
       dE_00_h_deg_rounded rnd degs !! q = Some r ∧
       r = rnd (d + 360) ∧ 0 <= r <= 360) ∧
  (∀ hs : list R, dE_00_h_deg hs = dE_00_h_deg_rounded id (np.rad2deg hs)).
Proof.
  intros Hp Hneg. split_and!.
  - exists (spec.h_deg h).
    split; [by apply (dE_00_local_h_deg_lookup dat p L C)|].
    unfold spec.h_deg. cbv zeta.
    destruct (decide (np.rad2deg1 h < 0)); lra.
  - intros rnd degs q d Hrnd Hq Hd.
    destruct (dE_00_h_deg_rounded_lookup rnd degs q d Hrnd Hq)
      as (r & Hr & _ & Hsum & Hrange).
    exists r. split_and!; [done|apply Hsum; lra|apply Hrange; lra|apply Hrange; lra].
  - apply dE_00_h_deg_exact.
Qed.

Lemma dE_00_h_deg_normalised_witness :
  ∃ h_deg : R,
    dE_00_local_h_deg sample_dat !! 2%nat = Some h_deg ∧
    h_deg = np.rad2deg1 (- (PI / 2)) + 360 ∧
    0 <= h_deg <= 360.
Proof.
  apply (dE_00_h_deg_normalised sample_dat 2 40 20 (- (PI / 2))).
  - reflexivity.
  - replace (- (PI / 2)) with (- (1 / 2) * PI) by field.
    rewrite rad2deg1_of_pi_multiple. lra.
Defined.

(** *** Zero chroma *)

Lemma spec_S_C_0 : spec.S_C 0 = 1.
Proof. unfold spec.S_C. ring. Qed.


Lemma spec_R_C_0 : spec.R_C 0 = 0.
Proof.
  unfold spec.R_C. replace (0 ^ 7 / (0 ^ 7 + 25 ^ 7)) with 0.
  - rewrite sqrt_0. ring.
  - unfold Rdiv. ring.
Qed.

Lemma radicand_S_L_pos (L : R) : 0 < 20 + (L - 50) ^ 2.
Proof. pose proof (pow2_ge_0 (L - 50)). lra. Qed.

Lemma spec_S_L_ge_1 (L : R) : 1 <= spec.S_L L.
Proof.
  unfold spec.S_L.
  pose proof (sqrt_lt_R0 _ (radicand_S_L_pos L)) as Hsqrt.
  pose proof (pow2_ge_0 (L - 50)) as Hsq.
  assert (0 <= 0.015 * (L - 50) ^ 2 / sqrt (20 + (L - 50) ^ 2)); [|lra].
  apply Rmult_le_pos; [lra|].
  left. by apply Rinv_0_lt_compat.
Qed.




(** *** The weights *)

Lemma powerRZ_minus_2_scale (k x : R) :
  powerRZ (k * x) (-2) = powerRZ (1 * x) (-2) / k ^ 2.
Proof.
  rewrite !powerRZ_minus_2, Rmult_1_l. unfold Rdiv.
  replace (k * x * (k * x)) with (x * x * k ^ 2) by ring.
  apply Rinv_mult.
Qed.

Lemma off_diagonal_scale (x k_C S_C k_h S_h : R) :
  x / (k_C * S_C * k_h * S_h) = x / (1 * S_C * 1 * S_h) / (k_C * k_h).
Proof.
  unfold Rdiv.
  replace (k_C * S_C * k_h * S_h) with (1 * S_C * 1 * S_h * (k_C * k_h)) by ring.
  rewrite Rinv_mult. ring.
Qed.

(** C5: for non-zero weights the matrix of [dE_00] at a point is the
    matrix for weights (1, 1, 1) with g[0,0] divided by k_L^2, g[1,1] by
    k_C^2, g[2,2] by k_h^2 and g[1,2], g[2,1] by k_C k_h; g[0,0] does not
    change with k_C and k_h, g[1,1] not with k_L and k_h, g[2,2] not with
    k_L and k_C. *)
Theorem dE_00_weight_scaling (dat : data.Data) (k_L k_C k_h : R)
    (p : nat) (L C h : R) :
  k_L ≠ 0 → k_C ≠ 0 → k_h ≠ 0 →
  data.get_linear dat space.ciede00lch !! p = Some (L, C, h) →
  let g := data.g (dE_00 dat k_L k_C k_h) in
  let g1 := data.g (dE_00 dat 1 1 1) in
  (∃ a00 a11 a22 a12 a21 : R,
     np.entry g1 p 0 0 = Some a00 ∧ np.entry g p 0 0 = Some (a00 / k_L ^ 2) ∧
     np.entry g1 p 1 1 = Some a11 ∧ np.entry g p 1 1 = Some (a11 / k_C ^ 2) ∧
     np.entry g1 p 2 2 = Some a22 ∧ np.entry g p 2 2 = Some (a22 / k_h ^ 2) ∧
     np.entry g1 p 1 2 = Some a12 ∧ np.entry g p 1 2 = Some (a12 / (k_C * k_h)) ∧
     np.entry g1 p 2 1 = Some a21 ∧ np.entry g p 2 1 = Some (a21 / (k_C * k_h)) ∧
     a12 = a21) ∧
  (∀ k_L' k_C' k_h' : R,
     np.entry (data.g (dE_00 dat k_L k_C' k_h')) p 0 0 = np.entry g p 0 0 ∧
     np.entry (data.g (dE_00 dat k_L' k_C k_h')) p 1 1 = np.entry g p 1 1 ∧
     np.entry (data.g (dE_00 dat k_L' k_C' k_h)) p 2 2 = np.entry g p 2 2).
Proof.
  intros HL HC Hh Hp g g1. subst g g1. split.
  - eexists _, _, _, _, _.
    rewrite !dE_00_g, !(entry_fmap _ _ p (L, C, h)) by done.
    unfold dE_00_point. cbn [fst snd mbind option_bind lookup list_lookup].
    cbv zeta.
    split_and!; try reflexivity; f_equal.
    + apply powerRZ_minus_2_scale.
    + apply powerRZ_minus_2_scale.
    + rewrite powerRZ_minus_2_scale. unfold Rdiv. ring.
    + apply off_diagonal_scale.
    + apply off_diagonal_scale.
  - intros k_L' k_C' k_h'.
    rewrite !dE_00_g, !(entry_fmap _ _ p (L, C, h)) by done.
    split_and!; reflexivity.
Qed.

Lemma dE_00_weight_scaling_witness :
  np.entry (data.g (dE_00 sample_dat 2 1 1)) 1 0 0
  = np.entry (data.g (dE_00 sample_dat 2 3 5)) 1 0 0.
Proof.
  assert (H2 : (2 : R) ≠ 0) by lra.
  assert (H3 : (3 : R) ≠ 0) by lra.
  assert (H5 : (5 : R) ≠ 0) by lra.
  pose proof (dE_00_weight_scaling sample_dat 2 3 5 1 60 30 1 H2 H3 H5 eq_refl)
    as [_ Hindep].
  apply (Hindep 1 1 1).
Defined.

(** ** The Poincare disk builder *)

Lemma has_shape_poincare_disk (Rc : R) (d : list (R * R * R)) :
  np.has_shape (length d) (poincare_disk_point Rc <$> d).
Proof.
  apply has_shape_fmap. intros x. split; [done|]. by repeat constructor.
Qed.

(** C7: for a disk space carrying the radius of curvature [Rc],
    [poincare_disk] returns a result tagged with that space and the batch,
    of shape (N,3,3), whose matrix at a point with disk coordinates
    (d0, d1, d2) has g[0,0] = 1, g[1,1] = g[2,2] = 4 Rc^2 / (1 - d1^2 - d2^2)^2
    and zero elsewhere; at a point with d1 = d2 = 0 both are 4 Rc^2. *)
Theorem poincare_disk_entries (sp : space.Space) (Rc : R) (dat : data.Data)
    (p : nat) (d0 d1 d2 : R) :
  space.R_ sp = Some Rc →
  data.get_linear dat sp !! p = Some (d0, d1, d2) →
  ∃ td : data.TensorData,
    poincare_disk sp dat = Some td ∧
    data.sp td = sp ∧ data.dat td = dat ∧
    np.has_shape (length (data.get_linear dat sp)) (data.g td) ∧
    np.entry (data.g td) p 0 0 = Some 1 ∧
    np.entry (data.g td) p 1 1 = Some (4 * Rc ^ 2 / (1 - d1 ^ 2 - d2 ^ 2) ^ 2) ∧
    np.entry (data.g td) p 2 2 = Some (4 * Rc ^ 2 / (1 - d1 ^ 2 - d2 ^ 2) ^ 2) ∧
    np.entry (data.g td) p 0 1 = Some 0 ∧ np.entry (data.g td) p 0 2 = Some 0 ∧
    np.entry (data.g td) p 1 0 = Some 0 ∧ np.entry (data.g td) p 1 2 = Some 0 ∧
    np.entry (data.g td) p 2 0 = Some 0 ∧ np.entry (data.g td) p 2 1 = Some 0 ∧
    (d1 = 0 → d2 = 0 →
     np.entry (data.g td) p 1 1 = Some (4 * Rc ^ 2) ∧
     np.entry (data.g td) p 2 2 = Some (4 * Rc ^ 2)).
Proof.
  intros HR Hp. eexists. split; [by apply poincare_disk_g|].
  cbn [data.sp data.dat data.g].
  rewrite !(entry_fmap _ _ p (d0, d1, d2)) by done.
  unfold poincare_disk_point.
  cbn [fst snd mbind option_bind lookup list_lookup].
  split_and!; try done; try apply has_shape_poincare_disk.
  - f_equal. unfold Rdiv. ring.
  - f_equal. unfold Rdiv. ring.
  - intros -> ->. split; f_equal; field.
Qed.

Lemma poincare_disk_entries_witness :
  ∃ td : data.TensorData,
    poincare_disk (space.TransformPoincareDisk space.cielab 100) sample_dat
    = Some td ∧
    np.entry (data.g td) 0 1 1 = Some (4 * 100 ^ 2).
Proof.
  destruct (poincare_disk_entries
              (space.TransformPoincareDisk space.cielab 100) 100 sample_dat
              0 50 0 0 eq_refl eq_refl)
    as (td & Htd & _ & _ & _ & _ & _ & _ & _ & _ & _ & _ & _ & _ & Hzero).
  exists td. split; [exact Htd|]. by apply Hzero.
Defined.

(** C8, as stated, fails: the builder asks the batch for its coordinates
    in the disk space it is given, and the coordinates of a batch in the
    disk space of radius 2 need not be those in the disk space of radius 1.
    For [shrinking_dat] and s = 2 the entry g[1,1] goes from 64/9 to
    4096/225, not to 4 * 64/9. *)
Lemma poincare_disk_radius_scaling_fails :
  ¬ (∀ (dat : data.Data) (base : space.Space) (Rc s : R)
       (td td' : data.TensorData) (p : nat) (a : R),
       0 < s →
       poincare_disk (space.TransformPoincareDisk base Rc) dat = Some td →
       poincare_disk (space.TransformPoincareDisk base (s * Rc)) dat = Some td' →
       np.entry (data.g td) p 1 1 = Some a →
       np.entry (data.g td') p 1 1 = Some (s ^ 2 * a)).
Proof.
  intros Hall.
  pose proof (poincare_disk_g (space.TransformPoincareDisk space.cielab 1)
                1 shrinking_dat eq_refl) as Htd.
  pose proof (poincare_disk_g (space.TransformPoincareDisk space.cielab (2 * 1))
                (2 * 1) shrinking_dat eq_refl) as Htd'.
  pose proof (Hall shrinking_dat space.cielab 1 2 _ _ 0%nat
                (1 ^ 2 * 4 / (1 - (/ (2 * 1)) ^ 2 - 0 ^ 2) ^ 2)
                ltac:(lra) Htd Htd' eq_refl) as Hentry.
  change (Some ((2 * 1) ^ 2 * 4 / (1 - (/ (2 * (2 * 1))) ^ 2 - 0 ^ 2) ^ 2)
          = Some (2 ^ 2 * (1 ^ 2 * 4 / (1 - (/ (2 * 1)) ^ 2 - 0 ^ 2) ^ 2)))
    in Hentry.
  assert (H1 : 1 ^ 2 * 4 / (1 - (/ (2 * 1)) ^ 2 - 0 ^ 2) ^ 2 = 64 / 9)
    by (field; lra).
  assert (H2 : (2 * 1) ^ 2 * 4 / (1 - (/ (2 * (2 * 1))) ^ 2 - 0 ^ 2) ^ 2
               = 4096 / 225) by (field; lra).
  rewrite H1, H2 in Hentry. injection Hentry as Hentry. lra.
Qed.

(** C8, amended: for a batch whose coordinates in the disk space of radius
    s Rc are its coordinates in the disk space of radius Rc, passing from
    the one space to the other multiplies g[1,1] and g[2,2] by s^2 at every
    point, leaves g[0,0] = 1 and leaves every other entry zero.  The sign
    of s plays no part. *)
Theorem poincare_disk_radius_scaling (sp sp' : space.Space) (Rc s : R)
    (dat : data.Data) (p : nat) (d0 d1 d2 : R) :
  space.R_ sp = Some Rc →
  space.R_ sp' = Some (s * Rc) →
  data.get_linear dat sp' = data.get_linear dat sp →
  data.get_linear dat sp !! p = Some (d0, d1, d2) →
  ∃ (td td' : data.TensorData) (a : R),
    poincare_disk sp dat = Some td ∧
    poincare_disk sp' dat = Some td' ∧
    np.entry (data.g td) p 1 1 = Some a ∧
    np.entry (data.g td) p 2 2 = Some a ∧
    np.entry (data.g td') p 1 1 = Some (s ^ 2 * a) ∧
    np.entry (data.g td') p 2 2 = Some (s ^ 2 * a) ∧
    np.entry (data.g td) p 0 0 = Some 1 ∧
    np.entry (data.g td') p 0 0 = Some 1 ∧
    np.entry (data.g td') p 0 1 = Some 0 ∧ np.entry (data.g td') p 0 2 = Some 0 ∧
    np.entry (data.g td') p 1 0 = Some 0 ∧ np.entry (data.g td') p 1 2 = Some 0 ∧
    np.entry (data.g td') p 2 0 = Some 0 ∧ np.entry (data.g td') p 2 1 = Some 0.
Proof.
  intros HR HR' Hsame Hp.
  eexists _, _, (Rc ^ 2 * 4 / (1 - d1 ^ 2 - d2 ^ 2) ^ 2).
  split; [by apply poincare_disk_g|]. split; [by apply poincare_disk_g|].
  cbn [data.g]. rewrite Hsame.
  rewrite !(entry_fmap _ _ p (d0, d1, d2)) by done.
  unfold poincare_disk_point.
  cbn [fst snd mbind option_bind lookup list_lookup].
  split_and!; try done; f_equal; unfold Rdiv; ring.
Qed.

Lemma poincare_disk_radius_scaling_witness :
  ∃ (td td' : data.TensorData) (a : R),
    poincare_disk (space.TransformPoincareDisk space.cielab 100) sample_dat
    = Some td ∧
    poincare_disk (space.TransformPoincareDisk space.cielab (3 * 100)) sample_dat
    = Some td' ∧
    np.entry (data.g td) 1 1 1 = Some a ∧
    np.entry (data.g td') 1 1 1 = Some (3 ^ 2 * a).
Proof.
  destruct (poincare_disk_radius_scaling
              (space.TransformPoincareDisk space.cielab 100)
              (space.TransformPoincareDisk space.cielab (3 * 100))
              100 3 sample_dat 1 60 (1 / 2) (1 / 4)
              eq_refl eq_refl eq_refl eq_refl)
    as (td & td' & a & Htd & Htd' & H11 & _ & H11' & _).
  exists td, td', a. split_and!; assumption.
Defined.

(** ** Symmetry *)

(** C9: every matrix returned by a builder is symmetric: those of
    [euclidean] and of its seven named instances, those of [dE_00] for any
    weights, and those of [poincare_disk] whenever it returns.  At all
    indices i, j in {0,1,2} the entries g[i,j] and g[j,i] exist and are
    equal. *)
Theorem builders_symmetric (sp : space.Space) (dat : data.Data)
    (k_L k_C k_h : R) :
  symmetric_batch (data.g (euclidean sp dat)) ∧
  Forall (λ td, symmetric_batch (data.g td))
    [dE_ab dat; dE_uv dat; dE_E dat; dE_DIN99 dat;
     dE_DIN99b dat; dE_DIN99c dat; dE_DIN99d dat] ∧
  symmetric_batch (data.g (dE_00 dat k_L k_C k_h)) ∧
  (∀ td : data.TensorData,
     poincare_disk sp dat = Some td → symmetric_batch (data.g td)).
Proof.
  assert (Heuc : ∀ sp', symmetric_batch (data.g (euclidean sp' dat))).
  { intros sp'. rewrite euclidean_g. apply Forall_replicate, symmetric33_eye. }
  split_and!.
  - apply Heuc.
  - unfold dE_ab, dE_uv, dE_E, dE_DIN99, dE_DIN99b, dE_DIN99c, dE_DIN99d.
    repeat constructor; apply Heuc.
  - rewrite dE_00_g. apply Forall_fmap, Forall_true.
    intros x. apply symmetric33_dE_00_point.
  - intros td Htd. destruct (space.R_ sp) as [Rc|] eqn:HR.
    + rewrite (poincare_disk_g sp Rc) in Htd by done.
      injection Htd as <-. cbn [data.g].
      apply Forall_fmap, Forall_true.
      intros x. apply symmetric33_poincare_disk_point.
    + rewrite poincare_disk_no_radius in Htd by done.
      destruct (data.get_linear dat sp); [|done].
      injection Htd as <-. constructor.
Qed.

Lemma builders_symmetric_witness :
  ∃ td : data.TensorData,
    poincare_disk (space.TransformPoincareDisk space.cielab 100) sample_dat
    = Some td ∧
    symmetric_batch (data.g td).
Proof.
  eexists. split.
  - apply (poincare_disk_g _ 100). reflexivity.
  - apply (builders_symmetric
             (space.TransformPoincareDisk space.cielab 100) sample_dat 1 1 1).
    apply (poincare_disk_g _ 100). reflexivity.
Defined.

(** * Further properties of the builders *)

(** ** Quadratic forms and bounds of the CIEDE2000 scalars *)

Lemma quad_form_3 (a b c d e f g h i x y z : R) :
  quad_form [[a; b; c]; [d; e; f]; [g; h; i]] [x; y; z]
  = a * x * x + e * y * y + i * z * z
    + (b + d) * x * y + (c + g) * x * z + (f + h) * y * z.
Proof.
  unfold quad_form, mat_vec, dot. cbn [fmap list_fmap zip_with foldr]. ring.
Qed.

Lemma spec_T_bounds (h : R) : 0.07 <= spec.T h <= 1.93.
Proof.
  unfold spec.T.
  pose proof (COS_bound (np.deg2rad1 (spec.h_deg h - 30))).
  pose proof (COS_bound (2 * h)).
  pose proof (COS_bound (np.deg2rad1 (3 * spec.h_deg h + 6))).
  pose proof (COS_bound (np.deg2rad1 (4 * spec.h_deg h - 63))).
  lra.
Qed.

Lemma spec_S_C_ge_1 (C : R) : 0 <= C → 1 <= spec.S_C C.
Proof. unfold spec.S_C. lra. Qed.

Lemma spec_S_h_ge_1 (C h : R) : 0 <= C → 1 <= spec.S_h C h.
Proof.
  intros HC. unfold spec.S_h. pose proof (spec_T_bounds h) as [HT _].
  assert (0 <= 0.015 * C * spec.T h); [|lra].
  apply Rmult_le_pos; lra.
Qed.

Lemma pow7_nonneg (C : R) : 0 <= C → 0 <= C ^ 7.
Proof. intros HC. by apply pow_le. Qed.

Lemma chroma_ratio_bounds (C : R) :
  0 <= C → 0 <= C ^ 7 / (C ^ 7 + 25 ^ 7) < 1.
Proof.
  intros HC. pose proof (pow7_nonneg C HC) as H7.
  assert (Hden : 0 < C ^ 7 + 25 ^ 7) by lra.
  split.
  - apply Rmult_le_pos; [done|]. left. by apply Rinv_0_lt_compat.
  - apply (Rmult_lt_reg_r (C ^ 7 + 25 ^ 7)); [done|].
    unfold Rdiv. rewrite Rmult_assoc, Rinv_l by lra. lra.
Qed.

Lemma spec_R_C_bounds (C : R) : 0 <= C → 0 <= spec.R_C C < 2.
Proof.
  intros HC. unfold spec.R_C.
  pose proof (chroma_ratio_bounds C HC) as [Hlo Hhi].
  pose proof (sqrt_pos (C ^ 7 / (C ^ 7 + 25 ^ 7))) as Hs.
  pose proof (sqrt_lt_1_alt _ 1 (conj Hlo Hhi)) as Hs1.
  rewrite sqrt_1 in Hs1. lra.
Qed.

Lemma spec_R_T_sqr_lt_4 (C h : R) : 0 <= C → spec.R_T C h * spec.R_T C h < 4.
Proof.
  intros HC. unfold spec.R_T.
  pose proof (spec_R_C_bounds C HC) as [Hlo Hhi].
  pose proof (SIN_bound (np.deg2rad1 (2 * spec.d_theta h))) as [Hs1 Hs2].
  set (s := sin _) in *. set (r := spec.R_C C) in *.
  assert (s * s <= 1) by nra.
  assert (r * r < 4) by nra.
  nra.
Qed.

Lemma coupled_squares_pos (r X Y Z : R) :
  r * r < 4 → X ≠ 0 ∨ Y ≠ 0 ∨ Z ≠ 0 →
  0 < X * X + Y * Y + Z * Z + r * Y * Z.
Proof.
  intros Hr Hnz.
  assert (HY : Y * Y + r * Y * Z + Z * Z
               = (Y + r * Z / 2) * (Y + r * Z / 2) + (1 - r * r / 4) * (Z * Z))
    by field.
  pose proof (Rle_0_sqr X) as HX2. unfold Rsqr in HX2.
  pose proof (Rle_0_sqr (Y + r * Z / 2)) as HW2. unfold Rsqr in HW2.
  destruct (Req_dec Z 0) as [->|HZ].
  - assert (0 < X * X + Y * Y); [|lra].
    destruct Hnz as [HX|[HY'|HZ]]; [| |done].
    + pose proof (Rsqr_pos_lt X HX) as H. unfold Rsqr in H.
      pose proof (Rle_0_sqr Y) as H'. unfold Rsqr in H'. lra.
    + pose proof (Rsqr_pos_lt Y HY') as H. unfold Rsqr in H. lra.
  - pose proof (Rsqr_pos_lt Z HZ) as HZ2. unfold Rsqr in HZ2.
    assert (0 < (1 - r * r / 4) * (Z * Z)) by (apply Rmult_lt_0_compat; lra).
    lra.
Qed.

Lemma dE_00_point_quad_form (k_L k_C k_h L C h x y z : R) :
  let t := / (k_L * spec.S_L L) in
  let u := / (k_C * spec.S_C C) in
  let w := C * / (k_h * spec.S_h C h) in
  quad_form (dE_00_point k_L k_C k_h (L, C, h)) [x; y; z]
  = (t * x) * (t * x) + (u * y) * (u * y) + (w * z) * (w * z)
    + spec.R_T C h * (u * y) * (w * z).
Proof.
  intros t u w. unfold dE_00_point. cbn [fst snd]. cbv zeta.
  rewrite quad_form_3, !powerRZ_minus_2.
  subst t u w. unfold Rdiv. rewrite !Rinv_mult.
  generalize (/ k_L) (/ k_C) (/ k_h) (/ spec.S_L L) (/ spec.S_C C)
    (/ spec.S_h C h) (spec.R_T C h).
  intros. replace 0.5 with (/ 2) by lra. field.
Qed.

Lemma dE_00_g_lookup (dat : data.Data) (k_L k_C k_h : R) (p : nat) (q : R * R * R) :
  data.get_linear dat space.ciede00lch !! p = Some q →
  data.g (dE_00 dat k_L k_C k_h) !! p = Some (dE_00_point k_L k_C k_h q).
Proof. intros Hp. by rewrite dE_00_g, list_lookup_fmap, Hp. Qed.


(** X1: for non-zero weights the matrix of [dE_00] at a point of positive
    chroma is positive definite: the quadratic form of every non-zero
    displacement is positive. *)
Theorem dE_00_positive_definite (dat : data.Data) (k_L k_C k_h : R)
    (p : nat) (L C h : R) :
  k_L ≠ 0 → k_C ≠ 0 → k_h ≠ 0 →
  data.get_linear dat space.ciede00lch !! p = Some (L, C, h) →
  0 < C →
  ∃ m : list (list R),
    data.g (dE_00 dat k_L k_C k_h) !! p = Some m ∧
    ∀ x y z : R, x ≠ 0 ∨ y ≠ 0 ∨ z ≠ 0 → 0 < quad_form m [x; y; z].
Proof.
  intros HL HC Hh Hp HCpos. eexists. split; [by apply dE_00_g_lookup|].
  intros x y z Hnz. rewrite dE_00_point_quad_form. cbv zeta.
  pose proof (spec_S_L_ge_1 L) as HSL.
  pose proof (spec_S_C_ge_1 C ltac:(lra)) as HSC.
  pose proof (spec_S_h_ge_1 C h ltac:(lra)) as HSh.
  assert (Ht : / (k_L * spec.S_L L) ≠ 0).
  { apply Rinv_neq_0_compat, Rmult_integral_contrapositive_currified; [done|lra]. }
  assert (Hu : / (k_C * spec.S_C C) ≠ 0).
  { apply Rinv_neq_0_compat, Rmult_integral_contrapositive_currified; [done|lra]. }
  assert (Hw : C * / (k_h * spec.S_h C h) ≠ 0).
  { apply Rmult_integral_contrapositive_currified; [lra|].
    apply Rinv_neq_0_compat, Rmult_integral_contrapositive_currified; [done|lra]. }
  apply coupled_squares_pos; [apply spec_R_T_sqr_lt_4; lra|].
  destruct Hnz as [Hx|[Hy|Hz]]; [left|right; left|right; right];
    by apply Rmult_integral_contrapositive_currified.
Qed.

Lemma dE_00_positive_definite_witness :
  ∃ m : list (list R),
    data.g (dE_00 sample_dat 1 2 3) !! 1%nat = Some m ∧
    0 < quad_form m [0; 1; -1].
Proof.
  destruct (dE_00_positive_definite sample_dat 1 2 3 1 60 30 1)
    as (m & Hm & Hpos); [lra|lra|lra|reflexivity|lra|].
  exists m. split; [exact Hm|]. apply Hpos. right. left. lra.
Defined.




Lemma dE_00_local_S_h_pointwise (dat : data.Data) :
  dE_00_local_S_h dat = (λ q, spec.S_h q.1.2 q.2) <$> dE_00_lch dat.
Proof.
  unfold dE_00_local_S_h, dE_00_local_T, dE_00_local_h_deg.
  by rewrite dE_00_T_pointwise, dE_00_S_h_pointwise.
Qed.

Lemma dE_00_local_R_T_pointwise (dat : data.Data) :
  dE_00_local_R_T dat = (λ q, spec.R_T q.1.2 q.2) <$> dE_00_lch dat.
Proof.
  unfold dE_00_local_R_T, dE_00_local_h_deg.
  by rewrite dE_00_R_C_pointwise, dE_00_d_theta_pointwise, dE_00_R_T_pointwise.
Qed.


(** X3: on a batch whose chroma values are all non-negative and for
    non-zero weights, [dE_00] never divides by zero and never takes the
    square root of a negative number: the radicand of S_L is positive at
    every point, the radicand of R_C is non-negative, and none of the
    arrays it divides by or raises to the power -2 has a zero entry. *)
Theorem dE_00_no_zero_divisor (dat : data.Data) (k_L k_C k_h : R) :
  k_L ≠ 0 → k_C ≠ 0 → k_h ≠ 0 →
  Forall (λ q, 0 <= q.1.2) (data.get_linear dat space.ciede00lch) →
  let lch := data.get_linear dat space.ciede00lch in
  let L := np.col0 lch in
  let C := np.col1 lch in
  let S_L := dE_00_S_L L in
  let S_C := dE_00_S_C C in
  let S_h := dE_00_local_S_h dat in
  Forall (λ v, 0 < v) (20 + (L - 50) ** 2%nat)%np ∧
  Forall (λ v, v ≠ 0) (np.sqrt (20 + (L - 50) ** 2%nat)%np) ∧
  Forall (λ v, v ≠ 0) (C ** 7%nat + (25 ^ 7)%R)%np ∧
  Forall (λ v, 0 <= v) (C ** 7%nat / (C ** 7%nat + (25 ^ 7)%R))%np ∧
  Forall (λ v, v ≠ 0) (k_L * S_L)%np ∧
  Forall (λ v, v ≠ 0) (k_C * S_C)%np ∧
  Forall (λ v, v ≠ 0) (k_h * S_h)%np ∧
  Forall (λ v, v ≠ 0) (k_C * S_C * k_h * S_h)%np.
Proof.
  intros HL HC Hh Hall. cbv zeta.
  rewrite dE_00_local_S_h_pointwise, dE_00_S_L_pointwise, dE_00_S_C_pointwise.
  unfold dE_00_lch. revert Hall.
  generalize (data.get_linear dat space.ciede00lch) as lch. intros lch Hall.
  np_unfold.
  induction Hall as [|q lch Hq Hall IH]; [by split_and!|].
  destruct IH as (IH1 & IH2 & IH3 & IH4 & IH5 & IH6 & IH7 & IH8).
  np_step.
  pose proof (radicand_S_L_pos q.1.1) as Hrad.
  pose proof (sqrt_lt_R0 _ Hrad) as Hsqrt.
  pose proof (spec_S_L_ge_1 q.1.1) as HSL.
  pose proof (spec_S_C_ge_1 q.1.2 Hq) as HSC.
  pose proof (spec_S_h_ge_1 q.1.2 q.2 Hq) as HSh.
  pose proof (pow7_nonneg _ Hq) as H7.
  pose proof (chroma_ratio_bounds _ Hq) as [Hratio _].
  split_and!; (constructor; [|done]).
  - done.
  - lra.
  - lra.
  - done.
  - apply Rmult_integral_contrapositive_currified; [done|lra].
  - apply Rmult_integral_contrapositive_currified; [done|lra].
  - apply Rmult_integral_contrapositive_currified; [done|lra].
  - repeat apply Rmult_integral_contrapositive_currified; try done; lra.
Qed.

Lemma dE_00_no_zero_divisor_witness :
  Forall (λ v, v ≠ 0)
    (2 * dE_00_S_C (np.col1 (data.get_linear sample_dat space.ciede00lch))
     * 3 * dE_00_local_S_h sample_dat)%np.
Proof.
  apply (dE_00_no_zero_divisor sample_dat 1 2 3); [lra|lra|lra|].
  repeat constructor; cbn [fst snd]; lra.
Defined.

Lemma inv_sqr_scaled_bounds (k S : R) :
  k ≠ 0 → 1 <= S → 0 < powerRZ (k * S) (-2) <= / k ^ 2.
Proof.
  intros Hk HS. rewrite powerRZ_minus_2.
  pose proof (Rsqr_pos_lt k Hk) as Hk2. unfold Rsqr in Hk2.
  assert (HS2 : 1 <= S * S) by nra.
  assert (Hk2' : 0 < k ^ 2) by (simpl; lra).
  assert (Hle : k ^ 2 <= k * S * (k * S)).
  { replace (k * S * (k * S)) with (k * k * (S * S)) by ring.
    replace (k ^ 2) with (k * k * 1) by ring.
    apply Rmult_le_compat_l; lra. }
  assert (Hpos : 0 < k * S * (k * S)) by lra.
  split; [by apply Rinv_0_lt_compat|].
  by apply Rinv_le_contravar.
Qed.


(** X4: for non-zero weights, at a point of non-negative chroma the
    diagonal of the matrix of [dE_00] is bounded by the weights:
    0 < g[0,0] <= 1/k_L^2 with equality at L = 50, 0 < g[1,1] <= 1/k_C^2 and
    0 <= g[2,2] <= C^2/k_h^2, with g[1,1] = 1/k_C^2 and g[2,2] = 0 at
    C = 0. *)
Theorem dE_00_diagonal_bounds (dat : data.Data) (k_L k_C k_h : R)
    (p : nat) (L C h : R) :
  k_L ≠ 0 → k_C ≠ 0 → k_h ≠ 0 →
  data.get_linear dat space.ciede00lch !! p = Some (L, C, h) →
  0 <= C →
  ∃ a b c : R,
    np.entry (data.g (dE_00 dat k_L k_C k_h)) p 0 0 = Some a ∧
    np.entry (data.g (dE_00 dat k_L k_C k_h)) p 1 1 = Some b ∧
    np.entry (data.g (dE_00 dat k_L k_C k_h)) p 2 2 = Some c ∧
    0 < a <= / k_L ^ 2 ∧
    0 < b <= / k_C ^ 2 ∧
    0 <= c <= C ^ 2 * / k_h ^ 2 ∧
    (L = 50 → a = / k_L ^ 2) ∧
    (C = 0 → b = / k_C ^ 2 ∧ c = 0).
Proof.
  intros HL HC Hh Hp HC0. eexists _, _, _.
  rewrite dE_00_g, !(entry_fmap _ _ p (L, C, h)) by done.
  unfold dE_00_point. cbn [fst snd mbind option_bind lookup list_lookup].
  cbv zeta. do 3 (split; [reflexivity|]).
  split; [|split; [|split; [|split]]].
  - apply inv_sqr_scaled_bounds; [done|apply spec_S_L_ge_1].
  - apply inv_sqr_scaled_bounds; [done|by apply spec_S_C_ge_1].
  - pose proof (inv_sqr_scaled_bounds k_h _ Hh (spec_S_h_ge_1 C h HC0)) as [H1 H2].
    pose proof (pow2_ge_0 C) as HC2. split; [nra|].
    by apply Rmult_le_compat_l.
  - intros ->. rewrite powerRZ_minus_2. f_equal.
    unfold spec.S_L. replace (50 - 50) with 0 by ring.
    unfold Rdiv. replace (0.015 * 0 ^ 2 * / sqrt (20 + 0 ^ 2)) with 0 by ring.
    ring.
  - intros ->. rewrite spec_S_C_0, Rmult_1_r, powerRZ_minus_2. split.
    + f_equal. ring.
    + ring.
Qed.

Lemma dE_00_diagonal_bounds_witness :
  ∃ a : R,
    np.entry (data.g (dE_00 sample_dat 2 1 1)) 1 0 0 = Some a ∧
    0 < a <= / 2 ^ 2.
Proof.
  destruct (dE_00_diagonal_bounds sample_dat 2 1 1 1 60 30 1)
    as (a & b & c & Ha & _ & _ & Hbound & _); [lra|lra|lra|reflexivity|lra|].
  exists a. split; [exact Ha|exact Hbound].
Defined.

Lemma deg2rad1_rad2deg1 (h : R) : np.deg2rad1 (np.rad2deg1 h) = h.
Proof. unfold np.deg2rad1, np.rad2deg1. field. apply PI_neq0. Qed.

Lemma deg2rad1_linear (k x c : R) :
  np.deg2rad1 (k * x + c) = k * np.deg2rad1 x + np.deg2rad1 c.
Proof. unfold np.deg2rad1. ring. Qed.

Lemma deg2rad1_360 : np.deg2rad1 360 = 2 * PI.
Proof. unfold np.deg2rad1. field. Qed.

Lemma cos_affine_h_deg (n : nat) (h c : R) :
  cos (np.deg2rad1 (INR n * spec.h_deg h + c))
  = cos (INR n * h + np.deg2rad1 c).
Proof.
  rewrite deg2rad1_linear. unfold spec.h_deg. cbv zeta.
  destruct (decide (np.rad2deg1 h < 0)) as [Hneg|Hpos].
  - replace (np.rad2deg1 h + 360) with (1 * np.rad2deg1 h + 360) by ring.
    rewrite deg2rad1_linear, deg2rad1_rad2deg1, deg2rad1_360.
    replace (INR n * (1 * h + 2 * PI) + np.deg2rad1 c)
      with (INR n * h + np.deg2rad1 c + 2 * INR n * PI) by ring.
    apply cos_period.
  - by rewrite deg2rad1_rad2deg1.
Qed.

Lemma spec_T_radians (h : R) : spec.T h = T_radians h.
Proof.
  unfold spec.T, T_radians.
  pose proof (cos_affine_h_deg 1 h (-30)) as H1.
  pose proof (cos_affine_h_deg 3 h 6) as H3.
  pose proof (cos_affine_h_deg 4 h (-63)) as H4.
  simpl INR in H1, H3, H4.
  replace (spec.h_deg h - 30) with (1 * spec.h_deg h + -30) by ring.
  replace (3 * spec.h_deg h + 6) with ((1 + 1 + 1) * spec.h_deg h + 6) by ring.
  replace (4 * spec.h_deg h - 63) with ((1 + 1 + 1 + 1) * spec.h_deg h + -63) by ring.
  rewrite H1, H3, H4.
  replace (1 * h + np.deg2rad1 (-30)) with (h - np.deg2rad1 30)
    by (unfold np.deg2rad1; ring).
  replace ((1 + 1 + 1) * h + np.deg2rad1 6) with (3 * h + np.deg2rad1 6) by ring.
  replace ((1 + 1 + 1 + 1) * h + np.deg2rad1 (-63)) with (4 * h - np.deg2rad1 63)
    by (unfold np.deg2rad1; ring).
  reflexivity.
Qed.

Lemma T_radians_periodic (h : R) : T_radians (h + 2 * PI) = T_radians h.
Proof.
  unfold T_radians.
  replace (h + 2 * PI - np.deg2rad1 30) with (h - np.deg2rad1 30 + 2 * INR 1 * PI)
    by (simpl INR; ring).
  replace (2 * (h + 2 * PI)) with (2 * h + 2 * INR 2 * PI) by (simpl INR; ring).
  replace (3 * (h + 2 * PI) + np.deg2rad1 6)
    with (3 * h + np.deg2rad1 6 + 2 * INR 3 * PI) by (simpl INR; ring).
  replace (4 * (h + 2 * PI) - np.deg2rad1 63)
    with (4 * h - np.deg2rad1 63 + 2 * INR 4 * PI) by (simpl INR; ring).
  by rewrite !cos_period.
Qed.

Lemma dE_00_local_T_lookup (dat : data.Data) (p : nat) (L C h : R) :
  data.get_linear dat space.ciede00lch !! p = Some (L, C, h) →
  dE_00_local_T dat !! p = Some (spec.T h).
Proof.
  intros Hp. unfold dE_00_local_T, dE_00_local_h_deg, dE_00_lch, np.col2.
  by rewrite dE_00_T_pointwise, <- list_fmap_compose, list_lookup_fmap, Hp.
Qed.


(** X5: in exact arithmetic the array [T] of [dE_00] does not depend on the
    normalisation of the degree hue: at a point of hue angle h it holds
    the hue term with every angle in radians, and two points whose hue
    angles differ by one full turn get the same T. *)
Theorem dE_00_T_ignores_normalisation (dat : data.Data) (p p' : nat)
    (L C h L' C' : R) :
  data.get_linear dat space.ciede00lch !! p = Some (L, C, h) →
  data.get_linear dat space.ciede00lch !! p' = Some (L', C', h + 2 * PI) →
  dE_00_local_T dat !! p = Some (T_radians h) ∧
  dE_00_local_T dat !! p' = dE_00_local_T dat !! p.
Proof.
  intros Hp Hp'.
  rewrite (dE_00_local_T_lookup dat p L C h Hp).
  rewrite (dE_00_local_T_lookup dat p' L' C' _ Hp').
  by rewrite !spec_T_radians, T_radians_periodic.
Qed.

Lemma dE_00_T_ignores_normalisation_witness :
  dE_00_local_T turn_dat !! 1%nat = dE_00_local_T turn_dat !! 0%nat.
Proof.
  apply (dE_00_T_ignores_normalisation turn_dat 0 1 50 10 (np.deg2rad1 275) 50 10);
    reflexivity.
Defined.

(** *** Range of the normalised degree hue *)

Lemma rad2deg1_le (x y : R) : x <= y → np.rad2deg1 x <= np.rad2deg1 y.
Proof.
  intros Hxy. unfold np.rad2deg1. apply Rmult_le_compat_r; [|done].
  pose proof PI_RGT_0. apply Rlt_le, Rdiv_lt_0_compat; lra.
Qed.

Lemma rad2deg1_lt (x y : R) : x < y → np.rad2deg1 x < np.rad2deg1 y.
Proof.
  intros Hxy. unfold np.rad2deg1. apply Rmult_lt_compat_r; [|done].
  pose proof PI_RGT_0. apply Rdiv_lt_0_compat; lra.
Qed.


(** X6: step 2 of [dE_00] as a function of the degree value d that
    [np.rad2deg] returned for a point: a non-negative d is left as it is,
    so a value above 360 stays above 360; a negative d becomes d + 360; and
    for -360 <= d <= 360 the result lies in the closed interval [0, 360].
    The same holds of the step with the sum rounded by any rounding. *)
Theorem dE_00_h_deg_range (dat : data.Data) (p : nat) (L C h : R) :
  data.get_linear dat space.ciede00lch !! p = Some (L, C, h) →
  (∃ h_deg : R,
     dE_00_local_h_deg dat !! p = Some h_deg ∧
     (0 <= np.rad2deg1 h → h_deg = np.rad2deg1 h) ∧
     (-360 <= np.rad2deg1 h <= 360 → 0 <= h_deg <= 360) ∧
     (360 < np.rad2deg1 h → 360 < h_deg)) ∧
  (∀ (rnd : R → R) (degs : list R) (q : nat) (d : R),
     rounding rnd → degs !! q = Some d →
     ∃ r : R,
       dE_00_h_deg_rounded rnd degs !! q = Some r ∧
       (0 <= d → r = d) ∧
       (d < 0 → r = rnd (d + 360)) ∧
       (-360 <= d <= 360 → 0 <= r <= 360)).
Proof.
  intros Hp. split.
  - assert (Hdeg : np.rad2deg (np.col2 (dE_00_lch dat)) !! p = Some (np.rad2deg1 h)).
    { unfold np.rad2deg, np.col2, dE_00_lch.
      by rewrite <- list_fmap_compose, list_lookup_fmap, Hp. }
    destruct (dE_00_h_deg_rounded_lookup id _ p _ rounding_id Hdeg)
      as (r & Hr & Hpos & _ & Hrange).
    exists r. unfold dE_00_local_h_deg. rewrite dE_00_h_deg_exact.
    split_and!; [done|done|done|].
    intros Hbig. rewrite Hpos; lra.
  - intros rnd degs q d Hrnd Hq. by apply dE_00_h_deg_rounded_lookup.
Qed.

Lemma dE_00_h_deg_range_witness :
  ∃ h_deg : R,
    dE_00_local_h_deg sample_dat !! 2%nat = Some h_deg ∧ 0 <= h_deg <= 360.
Proof.
  destruct (dE_00_h_deg_range sample_dat 2 40 20 (- (PI / 2)) eq_refl)
    as ((h_deg & Hh & _ & Hrange & _) & _).
  exists h_deg. split; [exact Hh|].
  apply Hrange.
  replace (- (PI / 2)) with (- (1 / 2) * PI) by field.
  rewrite rad2deg1_of_pi_multiple. lra.
Defined.

(** *** The rotation term and the representative of the hue angle *)

Lemma rad2deg1_deg2rad1 (x : R) : np.rad2deg1 (np.deg2rad1 x) = x.
Proof. unfold np.deg2rad1, np.rad2deg1. field. apply PI_neq0. Qed.

Lemma deg2rad1_lt (x y : R) : x < y → np.deg2rad1 x < np.deg2rad1 y.
Proof.
  intros Hxy. unfold np.deg2rad1. apply Rmult_lt_compat_r; [|done].
  pose proof PI_RGT_0. apply Rdiv_lt_0_compat; lra.
Qed.

Lemma spec_h_deg_275 : spec.h_deg (np.deg2rad1 275) = 275.
Proof.
  unfold spec.h_deg. cbv zeta. rewrite rad2deg1_deg2rad1.
  destruct (decide (275 < 0)); lra.
Qed.

Lemma spec_h_deg_635 : spec.h_deg (np.deg2rad1 275 + 2 * PI) = 635.
Proof.
  unfold spec.h_deg. cbv zeta.
  replace (np.rad2deg1 (np.deg2rad1 275 + 2 * PI)) with 635.
  - destruct (decide (635 < 0)); lra.
  - unfold np.deg2rad1, np.rad2deg1. field. apply PI_neq0.
Qed.

Lemma spec_d_theta_275 : spec.d_theta (np.deg2rad1 275) = 30.
Proof.
  unfold spec.d_theta. rewrite spec_h_deg_275.
  replace (- ((275 - 275) / 25) ^ 2) with 0 by field.
  rewrite exp_0. ring.
Qed.

Lemma spec_d_theta_635 : 0 < spec.d_theta (np.deg2rad1 275 + 2 * PI) < 30.
Proof.
  unfold spec.d_theta. rewrite spec_h_deg_635.
  assert (Hneg : - ((635 - 275) / 25) ^ 2 < 0).
  { replace (- ((635 - 275) / 25) ^ 2) with (- (5184 / 25)) by field. lra. }
  pose proof (exp_pos (- ((635 - 275) / 25) ^ 2)) as Hpos.
  pose proof (exp_increasing _ _ Hneg) as Hlt. rewrite exp_0 in Hlt.
  lra.
Qed.

Lemma spec_R_C_pos (C : R) : 0 < C → 0 < spec.R_C C.
Proof.
  intros HC. unfold spec.R_C.
  assert (H7 : 0 < C ^ 7) by by apply pow_lt.
  assert (Hq : 0 < C ^ 7 / (C ^ 7 + 25 ^ 7)).
  { apply Rdiv_lt_0_compat; lra. }
  pose proof (sqrt_lt_R0 _ Hq). lra.
Qed.

Lemma spec_R_T_not_periodic (C : R) :
  0 < C →
  spec.R_T C (np.deg2rad1 275) ≠ spec.R_T C (np.deg2rad1 275 + 2 * PI).
Proof.
  intros HC. unfold spec.R_T. rewrite spec_d_theta_275.
  pose proof spec_d_theta_635 as [Hlo Hhi].
  set (d := spec.d_theta (np.deg2rad1 275 + 2 * PI)) in *.
  pose proof (spec_R_C_pos C HC) as HRC.
  pose proof PI_RGT_0 as Hpi.
  assert (H0 : np.deg2rad1 0 = 0) by (unfold np.deg2rad1; ring).
  assert (H60 : np.deg2rad1 (2 * 30) = PI / 3) by (unfold np.deg2rad1; field).
  pose proof (deg2rad1_lt 0 (2 * d) ltac:(lra)) as Ha.
  pose proof (deg2rad1_lt (2 * d) (2 * 30) ltac:(lra)) as Hb.
  rewrite H0 in Ha. rewrite H60 in Hb |- *.
  pose proof (sin_increasing_1 (np.deg2rad1 (2 * d)) (PI / 3)
                ltac:(lra) ltac:(lra) ltac:(lra) ltac:(lra) Hb) as Hsin.
  intros Heq. nra.
Qed.


(** X7: [dE_00] is not periodic in the hue angle.  For a colour of positive
    chroma and non-zero k_C, k_h, giving the hue angle as 275 degrees or
    as 275 degrees plus one full turn leaves the three diagonal entries
    unchanged but changes the off-diagonal entry g[1,2]: the rotation term
    is computed from the degree hue, which is normalised for negative
    angles only. *)
Theorem dE_00_rotation_term_not_periodic (dat : data.Data) (k_L k_C k_h : R)
    (p p' : nat) (L C : R) :
  k_C ≠ 0 → k_h ≠ 0 → 0 < C →
  data.get_linear dat space.ciede00lch !! p = Some (L, C, np.deg2rad1 275) →
  data.get_linear dat space.ciede00lch !! p'
  = Some (L, C, np.deg2rad1 275 + 2 * PI) →
  let g := data.g (dE_00 dat k_L k_C k_h) in
  np.entry g p 0 0 = np.entry g p' 0 0 ∧
  np.entry g p 1 1 = np.entry g p' 1 1 ∧
  np.entry g p 2 2 = np.entry g p' 2 2 ∧
  np.entry g p 1 2 ≠ np.entry g p' 1 2.
Proof.
  intros HkC Hkh HC Hp Hp' g. subst g.
  rewrite dE_00_g, !(entry_fmap _ _ p _ _ _ Hp), !(entry_fmap _ _ p' _ _ _ Hp').
  unfold dE_00_point. cbn [fst snd mbind option_bind lookup list_lookup].
  cbv zeta.
  assert (HSh : spec.S_h C (np.deg2rad1 275 + 2 * PI)
                = spec.S_h C (np.deg2rad1 275)).
  { unfold spec.S_h. by rewrite !spec_T_radians, T_radians_periodic. }
  rewrite HSh. split_and!; try reflexivity.
  intros Heq. injection Heq as Heq.
  pose proof (spec_S_C_ge_1 C ltac:(lra)) as HSC.
  pose proof (spec_S_h_ge_1 C (np.deg2rad1 275) ltac:(lra)) as HSh1.
  assert (HD : k_C * spec.S_C C * k_h * spec.S_h C (np.deg2rad1 275) ≠ 0).
  { repeat apply Rmult_integral_contrapositive_currified; try done; lra. }
  apply (spec_R_T_not_periodic C HC).
  apply (Rmult_eq_reg_r (/ (k_C * spec.S_C C * k_h * spec.S_h C (np.deg2rad1 275))));
    [|by apply Rinv_neq_0_compat].
  apply (Rmult_eq_reg_l (0.5 * C)); [|lra].
  unfold Rdiv in Heq. lra.
Qed.

Lemma dE_00_rotation_term_not_periodic_witness :
  np.entry (data.g (dE_00 turn_dat 1 1 1)) 0 1 2
  ≠ np.entry (data.g (dE_00 turn_dat 1 1 1)) 1 1 2.
Proof.
  apply (dE_00_rotation_term_not_periodic turn_dat 1 1 1 0 1 50 10);
    [lra|lra|lra|reflexivity|reflexivity].
Defined.

(** ** Batches are processed point by point *)


(** X8: [dE_00] treats the points of a batch one by one.  The matrices of
    a batch whose (L, C, h) rows are those of two batches, one after the
    other, are the matrices of the first followed by those of the second;
    and two points with the same (L, C, h), in any two batches and at any
    positions, get the same matrix. *)
Theorem dE_00_pointwise (dat dat1 dat2 : data.Data) (k_L k_C k_h : R) :
  data.get_linear dat space.ciede00lch
  = data.get_linear dat1 space.ciede00lch ++ data.get_linear dat2 space.ciede00lch →
  data.g (dE_00 dat k_L k_C k_h)
  = data.g (dE_00 dat1 k_L k_C k_h) ++ data.g (dE_00 dat2 k_L k_C k_h) ∧
  ∀ (p p1 : nat) (q : R * R * R),
    data.get_linear dat space.ciede00lch !! p = Some q →
    data.get_linear dat1 space.ciede00lch !! p1 = Some q →
    data.g (dE_00 dat k_L k_C k_h) !! p = data.g (dE_00 dat1 k_L k_C k_h) !! p1.
Proof.
  intros Hcat. split.
  - by rewrite !dE_00_g, Hcat, fmap_app.
  - intros p p1 q Hp Hp1.
    by rewrite (dE_00_g_lookup _ _ _ _ _ _ Hp), (dE_00_g_lookup _ _ _ _ _ _ Hp1).
Qed.

Lemma dE_00_pointwise_witness :
  data.g (dE_00 sample_dat 1 2 3)
  = data.g (dE_00 sample_dat_head 1 2 3) ++ data.g (dE_00 sample_dat_tail 1 2 3).
Proof.
  apply (dE_00_pointwise sample_dat sample_dat_head sample_dat_tail 1 2 3).
  reflexivity.
Defined.


(** X9: [poincare_disk] treats the points of a batch one by one: for a
    space with a radius, the matrices of a batch whose disk coordinates
    are those of two batches, one after the other, are the matrices of the
    first followed by those of the second. *)
Theorem poincare_disk_pointwise (sp : space.Space) (Rc : R)
    (dat dat1 dat2 : data.Data) :
  space.R_ sp = Some Rc →
  data.get_linear dat sp = data.get_linear dat1 sp ++ data.get_linear dat2 sp →
  ∃ td td1 td2 : data.TensorData,
    poincare_disk sp dat = Some td ∧
    poincare_disk sp dat1 = Some td1 ∧
    poincare_disk sp dat2 = Some td2 ∧
    data.g td = data.g td1 ++ data.g td2.
Proof.
  intros HR Hcat. eexists _, _, _.
  rewrite !(poincare_disk_g sp Rc) by done.
  split_and!; try reflexivity. cbn [data.g]. by rewrite Hcat, fmap_app.
Qed.

Lemma poincare_disk_pointwise_witness :
  ∃ td td1 td2 : data.TensorData,
    poincare_disk (space.TransformPoincareDisk space.cielab 100) sample_dat
    = Some td ∧
    poincare_disk (space.TransformPoincareDisk space.cielab 100) sample_dat_head
    = Some td1 ∧
    poincare_disk (space.TransformPoincareDisk space.cielab 100) sample_dat_tail
    = Some td2 ∧
    data.g td = data.g td1 ++ data.g td2.
Proof.
  apply (poincare_disk_pointwise
           (space.TransformPoincareDisk space.cielab 100) 100
           sample_dat sample_dat_head sample_dat_tail); reflexivity.
Defined.

(** ** The Poincare disk metric as a function of the point *)

Lemma poincare_disk_g_lookup (sp : space.Space) (Rc : R) (dat : data.Data)
    (p : nat) (q : R * R * R) :
  space.R_ sp = Some Rc →
  data.get_linear dat sp !! p = Some q →
  ∃ td, poincare_disk sp dat = Some td ∧
        data.g td !! p = Some (poincare_disk_point Rc q).
Proof.
  intros HR Hp. eexists. split; [by apply poincare_disk_g|].
  cbn [data.g]. by rewrite list_lookup_fmap, Hp.
Qed.


(** X10: the matrix of [poincare_disk] at a point depends on the radius of
    curvature and on d1^2 + d2^2 only: two points at the same distance
    from the centre of the disk, in any two batches and under any two
    spaces of the same radius, get the same matrix, whatever their first
    coordinates and their directions. *)
Theorem poincare_disk_radial (sp sp' : space.Space) (Rc : R)
    (dat dat' : data.Data) (p p' : nat) (d0 d1 d2 e0 e1 e2 : R) :
  space.R_ sp = Some Rc → space.R_ sp' = Some Rc →
  data.get_linear dat sp !! p = Some (d0, d1, d2) →
  data.get_linear dat' sp' !! p' = Some (e0, e1, e2) →
  d1 ^ 2 + d2 ^ 2 = e1 ^ 2 + e2 ^ 2 →
  ∃ (td td' : data.TensorData) (m : list (list R)),
    poincare_disk sp dat = Some td ∧
    poincare_disk sp' dat' = Some td' ∧
    data.g td !! p = Some m ∧ data.g td' !! p' = Some m.
Proof.
  intros HR HR' Hp Hp' Hrad.
  destruct (poincare_disk_g_lookup sp Rc dat p _ HR Hp) as (td & Htd & Hm).
  destruct (poincare_disk_g_lookup sp' Rc dat' p' _ HR' Hp') as (td' & Htd' & Hm').
  exists td, td', (poincare_disk_point Rc (d0, d1, d2)).
  split_and!; try done. rewrite Hm'. f_equal.
  unfold poincare_disk_point. cbn [fst snd].
  replace (1 - e1 ^ 2 - e2 ^ 2) with (1 - d1 ^ 2 - d2 ^ 2) by lra. done.
Qed.

Lemma poincare_disk_radial_witness :
  ∃ (td td' : data.TensorData) (m : list (list R)),
    poincare_disk (space.TransformPoincareDisk space.cielab 100) sample_dat
    = Some td ∧
    poincare_disk (space.TransformPoincareDisk space.cieluv 100)
      (data.mkData [] (λ _, [(0, - (1 / 4), 1 / 2)]))
    = Some td' ∧
    data.g td !! 1%nat = Some m ∧ data.g td' !! 0%nat = Some m.
Proof.
  apply (poincare_disk_radial
           (space.TransformPoincareDisk space.cielab 100)
           (space.TransformPoincareDisk space.cieluv 100) 100
           sample_dat (data.mkData [] (λ _, [(0, - (1 / 4), 1 / 2)]))
           1 0 60 (1 / 2) (1 / 4) 0 (- (1 / 4)) (1 / 2));
    [reflexivity|reflexivity|reflexivity|reflexivity|lra].
Defined.

Lemma poincare_disk_point_quad_form (Rc d0 d1 d2 x y z : R) :
  quad_form (poincare_disk_point Rc (d0, d1, d2)) [x; y; z]
  = x * x + Rc ^ 2 * 4 / (1 - d1 ^ 2 - d2 ^ 2) ^ 2 * (y * y + z * z).
Proof. unfold poincare_disk_point. cbn [fst snd]. rewrite quad_form_3. ring. Qed.

Lemma conformal_factor_pos (Rc d1 d2 : R) :
  Rc ≠ 0 → d1 ^ 2 + d2 ^ 2 ≠ 1 →
  0 < Rc ^ 2 * 4 / (1 - d1 ^ 2 - d2 ^ 2) ^ 2.
Proof.
  intros HR Hd. apply Rdiv_lt_0_compat.
  - pose proof (Rsqr_pos_lt Rc HR) as H. unfold Rsqr in H. simpl. lra.
  - assert (Hne : 1 - d1 ^ 2 - d2 ^ 2 ≠ 0) by lra.
    pose proof (Rsqr_pos_lt _ Hne) as H. unfold Rsqr in H. simpl. simpl in H. lra.
Qed.


(** X11: for a non-zero radius of curvature the matrix of [poincare_disk]
    at a point off the unit circle (d1^2 + d2^2 <> 1) is positive definite:
    the quadratic form of every non-zero displacement is positive. *)
Theorem poincare_disk_positive_definite (sp : space.Space) (Rc : R)
    (dat : data.Data) (p : nat) (d0 d1 d2 : R) :
  space.R_ sp = Some Rc → Rc ≠ 0 →
  data.get_linear dat sp !! p = Some (d0, d1, d2) →
  d1 ^ 2 + d2 ^ 2 ≠ 1 →
  ∃ (td : data.TensorData) (m : list (list R)),
    poincare_disk sp dat = Some td ∧ data.g td !! p = Some m ∧
    ∀ x y z : R, x ≠ 0 ∨ y ≠ 0 ∨ z ≠ 0 → 0 < quad_form m [x; y; z].
Proof.
  intros HR HRc Hp Hd.
  destruct (poincare_disk_g_lookup sp Rc dat p _ HR Hp) as (td & Htd & Hm).
  exists td, (poincare_disk_point Rc (d0, d1, d2)). split_and!; try done.
  intros x y z Hnz. rewrite poincare_disk_point_quad_form.
  pose proof (conformal_factor_pos Rc d1 d2 HRc Hd) as Hc.
  set (c := Rc ^ 2 * 4 / (1 - d1 ^ 2 - d2 ^ 2) ^ 2) in *.
  pose proof (Rle_0_sqr x) as Hx. pose proof (Rle_0_sqr y) as Hy.
  pose proof (Rle_0_sqr z) as Hz. unfold Rsqr in Hx, Hy, Hz.
  destruct Hnz as [H|[H|H]]; apply Rsqr_pos_lt in H; unfold Rsqr in H; nra.
Qed.

Lemma poincare_disk_positive_definite_witness :
  ∃ (td : data.TensorData) (m : list (list R)),
    poincare_disk (space.TransformPoincareDisk space.cielab 100) sample_dat
    = Some td ∧
    data.g td !! 1%nat = Some m ∧ 0 < quad_form m [0; 0; 1].
Proof.
  destruct (poincare_disk_positive_definite
              (space.TransformPoincareDisk space.cielab 100) 100
              sample_dat 1 60 (1 / 2) (1 / 4))
    as (td & m & Htd & Hm & Hpos); [reflexivity|lra|reflexivity|lra|].
  exists td, m. split_and!; [exact Htd|exact Hm|].
  apply Hpos. right. right. lra.
Defined.


(** X12: inside the unit disk the conformal factor g[1,1] = g[2,2] of
    [poincare_disk] is at least 4 R^2, its value at the centre, and does not
    decrease with the distance from the centre: of two points of a batch
    inside the disk, the one farther from the centre has the larger (or
    equal) factor. *)
Theorem poincare_disk_grows_towards_boundary (sp : space.Space) (Rc : R)
    (dat : data.Data) (p p' : nat) (d0 d1 d2 e0 e1 e2 : R) :
  space.R_ sp = Some Rc →
  data.get_linear dat sp !! p = Some (d0, d1, d2) →
  data.get_linear dat sp !! p' = Some (e0, e1, e2) →
  d1 ^ 2 + d2 ^ 2 <= e1 ^ 2 + e2 ^ 2 → e1 ^ 2 + e2 ^ 2 < 1 →
  ∃ (td : data.TensorData) (a b : R),
    poincare_disk sp dat = Some td ∧
    np.entry (data.g td) p 1 1 = Some a ∧ np.entry (data.g td) p 2 2 = Some a ∧
    np.entry (data.g td) p' 1 1 = Some b ∧ np.entry (data.g td) p' 2 2 = Some b ∧
    4 * Rc ^ 2 <= a <= b.
Proof.
  intros HR Hp Hp' Hle Hin.
  eexists _, _, _. split; [by apply poincare_disk_g|]. cbn [data.g].
  rewrite !(entry_fmap _ _ p _ _ _ Hp), !(entry_fmap _ _ p' _ _ _ Hp').
  unfold poincare_disk_point. cbn [fst snd mbind option_bind lookup list_lookup].
  split_and!; try reflexivity.
  - set (s := 1 - d1 ^ 2 - d2 ^ 2).
    assert (Hd1 : 0 <= d1 ^ 2) by apply pow2_ge_0.
    assert (Hd2 : 0 <= d2 ^ 2) by apply pow2_ge_0.
    assert (Hs : 0 < s <= 1) by (unfold s; lra).
    assert (Hs2 : 0 < s ^ 2 <= 1) by (simpl; nra).
    assert (HR2 : 0 <= Rc ^ 2 * 4) by (pose proof (pow2_ge_0 Rc); lra).
    replace (4 * Rc ^ 2) with (Rc ^ 2 * 4 * / 1) by field.
    unfold Rdiv. apply Rmult_le_compat_l; [done|].
    apply Rinv_le_contravar; lra.
  - set (s := 1 - d1 ^ 2 - d2 ^ 2). set (t := 1 - e1 ^ 2 - e2 ^ 2).
    assert (Ht : 0 < t <= s) by (unfold s, t; lra).
    assert (Ht2 : 0 < t ^ 2 <= s ^ 2) by (simpl; nra).
    assert (HR2 : 0 <= Rc ^ 2 * 4) by (pose proof (pow2_ge_0 Rc); lra).
    unfold Rdiv. apply Rmult_le_compat_l; [done|].
    apply Rinv_le_contravar; lra.
Qed.

Lemma poincare_disk_grows_towards_boundary_witness :
  ∃ (td : data.TensorData) (a b : R),
    poincare_disk (space.TransformPoincareDisk space.cielab 100) sample_dat
    = Some td ∧
    np.entry (data.g td) 0 1 1 = Some a ∧
    np.entry (data.g td) 1 1 1 = Some b ∧
    4 * 100 ^ 2 <= a <= b.
Proof.
  destruct (poincare_disk_grows_towards_boundary
              (space.TransformPoincareDisk space.cielab 100) 100
              sample_dat 0 1 50 0 0 60 (1 / 2) (1 / 4))
    as (td & a & b & Htd & Ha & _ & Hb & _ & Hle);
    [reflexivity|reflexivity|reflexivity|lra|lra|].
  exists td, a, b. split_and!; [exact Htd|exact Ha|exact Hb|apply Hle|apply Hle].
Defined.

(** ** A missing radius, and the size of what the builders return *)


(** X13: [poincare_disk] fails when the space has no radius of curvature
    and the batch is not empty (the radius is read inside the loop); on an
    empty batch it returns the empty batch of matrices, with or without a
    radius. *)
Theorem poincare_disk_missing_radius (sp : space.Space) (dat : data.Data) :
  (space.R_ sp = None → data.get_linear dat sp ≠ [] →
   poincare_disk sp dat = None) ∧
  (data.get_linear dat sp = [] →
   poincare_disk sp dat = Some (data.mkTensorData sp dat [])).
Proof.
  split.
  - intros HR Hne. rewrite poincare_disk_no_radius by done.
    by destruct (data.get_linear dat sp).
  - intros Hnil. destruct (space.R_ sp) as [Rc|] eqn:HR.
    + by rewrite (poincare_disk_g sp Rc), Hnil.
    + by rewrite poincare_disk_no_radius, Hnil.
Qed.

Lemma poincare_disk_missing_radius_witness :
  poincare_disk space.cielab sample_dat = None ∧
  poincare_disk space.cielab (data.mkData [] (λ _, []))
  = Some (data.mkTensorData space.cielab (data.mkData [] (λ _, [])) []).
Proof.
  split.
  - apply (poincare_disk_missing_radius space.cielab sample_dat); done.
  - apply (poincare_disk_missing_radius space.cielab (data.mkData [] (λ _, []))).
    reflexivity.
Defined.


(** X14: every builder returns one 3x3 matrix per point, also for the empty
    batch: [euclidean] one per row of the XYZ coordinates of the batch,
    [dE_00] one per row of its (L, C, h) coordinates, [poincare_disk],
    when it returns, one per row of its disk coordinates; an empty batch
    gives an empty batch of matrices. *)
Theorem builders_batch_shape (sp : space.Space) (dat : data.Data)
    (k_L k_C k_h : R) :
  np.has_shape (length (data.linear_XYZ dat)) (data.g (euclidean sp dat)) ∧
  np.has_shape (length (data.get_linear dat space.ciede00lch))
    (data.g (dE_00 dat k_L k_C k_h)) ∧
  (∀ td : data.TensorData,
     poincare_disk sp dat = Some td →
     np.has_shape (length (data.get_linear dat sp)) (data.g td)) ∧
  (data.linear_XYZ dat = [] → data.g (euclidean sp dat) = []) ∧
  (data.get_linear dat space.ciede00lch = [] →
   data.g (dE_00 dat k_L k_C k_h) = []).
Proof.
  split_and!.
  - rewrite euclidean_g. apply has_shape_replicate; [done|]. by repeat constructor.
  - apply has_shape_dE_00.
  - intros td Htd. destruct (space.R_ sp) as [Rc|] eqn:HR.
    + rewrite (poincare_disk_g sp Rc) in Htd by done. injection Htd as <-.
      apply has_shape_poincare_disk.
    + rewrite poincare_disk_no_radius in Htd by done.
      destruct (data.get_linear dat sp) as [|q d]; [|done].
      injection Htd as <-. by split.
  - intros Hnil. by rewrite euclidean_g, Hnil.
  - intros Hnil. by rewrite dE_00_g, Hnil.
Qed.

Lemma builders_batch_shape_witness :
  ∃ td : data.TensorData,
    poincare_disk (space.TransformPoincareDisk space.cielab 100) sample_dat
    = Some td ∧
    np.has_shape 3 (data.g td).
Proof.
  eexists. split.
  - apply (poincare_disk_g _ 100). reflexivity.
  - apply (builders_batch_shape
             (space.TransformPoincareDisk space.cielab 100) sample_dat 1 1 1).
    apply (poincare_disk_g _ 100). reflexivity.
Defined.
